(** * The serial AMR stencil kernel (SERIAL/AMR/amr.c)

    A shallow embedding of the numerical engine of [amr.c]: the stencil
    weight tables, the interpolation of the background grid into a
    refinement, the tiled and untiled stencil sweeps, the iteration
    driver with its refinement schedule, and the final validation.

    Conventions.
    - C integers ([int], [long]) are modelled by [Z]; signed overflow is
      undefined behaviour in C, so the model speaks about the runs in
      which no overflow occurs.  [%] and [/] are [Z.rem] and [Z.quot].
    - A heap buffer ([in], [out], [inr[0]], [outr[0]]) is a function from
      its linear index to its element.  What [malloc] returns is
      arbitrary, so every buffer starts from an arbitrary function.
    - The sweeps are stated over an arbitrary element type with arbitrary
      [+] and [*]: nothing about the loop order depends on the arithmetic.
      Where the value of a sum matters, [DTYPE] is the field of rationals
      [Qc] (exact arithmetic, no rounding).
    - [RADIUS], [STAR] and [DOUBLE] are compile-time macros; they are
      parameters here.  [LOOPGEN] is taken to be off (the compact
      representation of the loop body, the one written in the file). *)

From Stdlib Require Import ZArith List Lia Bool QArith Qcanon Qcabs Qround Field.
Import ListNotations.

Local Open Scope Z_scope.

(** ** Loops *)

(** The indices visited by [for (k = lo; k < hi; k++)]. *)
Definition Zrange (lo hi : Z) : list Z :=
  map (fun k => lo + Z.of_nat k) (seq 0 (Z.to_nat (hi - lo))).

(** [for (k = lo; k < hi; k++) s = body k s]. *)
Definition for_ {A : Type} (lo hi : Z) (body : Z -> A -> A) (s : A) : A :=
  fold_left (fun s k => body k s) (Zrange lo hi) s.

(** [for (k = t; k < hi; k += st) s = body k s], with fuel. *)
Fixpoint for_step_fuel {A : Type} (fuel : nat) (t hi st : Z)
    (body : Z -> A -> A) (s : A) : A :=
  match fuel with
  | O => s
  | S fuel' =>
      if t <? hi then for_step_fuel fuel' (t + st) hi st body (body t s)
      else s
  end.

(** A loop with a positive stride runs at most [hi - lo] times. *)
Definition for_step {A : Type} (lo hi st : Z) (body : Z -> A -> A) (s : A) : A :=
  for_step_fuel (Z.to_nat (hi - lo)) lo hi st body s.

(** Modelled from the spec: the macros [MIN], [MAX] and [ABS] come from
    par-res-kern_general.h, which is not part of the sources; the spec
    uses them as minimum, maximum ("clamp") and absolute value. *)
Definition MIN (a b : Z) : Z := if a <? b then a else b.
Definition MAX (a b : Z) : Z := if a >? b then a else b.

(** The two stencil shapes selected by the macro [STAR]. *)
Inductive stencil_shape : Type := Star | Compact.

(** ** Buffers and the stencil sweeps *)

Section Sweep.

Context {T : Type}.
Variable add mul : T -> T -> T.

(** A buffer, by linear index. *)
Definition buf : Type := Z -> T.

(** [b[k] = v]. *)
Definition upd (b : buf) (k : Z) (v : T) : buf :=
  fun c => if c =? k then v else b c.

(** The weight table, read as [WEIGHT(ii,jj)]. *)
Definition wtab : Type := Z -> Z -> T.

(** [WEIGHT(ii,jj) = v]. *)
Definition wset (w : wtab) (ii jj : Z) (v : T) : wtab :=
  fun x y => if (x =? ii) && (y =? jj) then v else w x y.

(** The indexing macros: [IN(i,j)] is [in[i+(j)*(n)]]; a refinement
    [g] lives at offset [g*nr_true*nr_true] of its allocation. *)
Definition idx (off S i j : Z) : Z := off + (i + j * S).

Variable RADIUS : Z.
Variable shape : stencil_shape.

(** [OUT(i,j) += WEIGHT(wi,wj)*IN(i+di,j+dj)]. *)
Definition accum (w : wtab) (inb : buf) (off S i j wi wj di dj : Z)
    (outb : buf) : buf :=
  upd outb (idx off S i j)
    (add (outb (idx off S i j))
         (mul (w wi wj) (inb (idx off S (i + di) (j + dj))))).

(** The loop body at one grid point (lines 450-452 and 459-460). *)
Definition point (w : wtab) (inb : buf) (off S i j : Z) (outb : buf) : buf :=
  match shape with
  | Star =>
      let o1 := for_ (- RADIUS) (RADIUS + 1)
                  (fun jj o => accum w inb off S i j 0 jj 0 jj o) outb in
      let o2 := for_ (- RADIUS) 0
                  (fun ii o => accum w inb off S i j ii 0 ii 0 o) o1 in
      for_ 1 (RADIUS + 1)
        (fun ii o => accum w inb off S i j ii 0 ii 0 o) o2
  | Compact =>
      for_ (- RADIUS) (RADIUS + 1)
        (fun jj o =>
           for_ (- RADIUS) (RADIUS + 1)
             (fun ii o => accum w inb off S i j ii jj ii jj o) o)
        outb
  end.

(** The untiled sweep over the interior (lines 444-464). *)
Definition sweep_untiled (w : wtab) (inb : buf) (off S : Z) (outb : buf) : buf :=
  for_ RADIUS (S - RADIUS)
    (fun j o =>
       for_ RADIUS (S - RADIUS) (fun i o => point w inb off S i j o) o)
    outb.

(** The tiled sweep over the interior (lines 467-491). *)
Definition sweep_tiled (tile_size : Z) (w : wtab) (inb : buf) (off S : Z)
    (outb : buf) : buf :=
  for_step RADIUS (S - RADIUS) tile_size
    (fun jt o =>
       for_step RADIUS (S - RADIUS) tile_size
         (fun it o =>
            for_ jt (MIN (S - RADIUS) (jt + tile_size))
              (fun j o =>
                 for_ it (MIN (S - RADIUS) (it + tile_size))
                   (fun i o => point w inb off S i j o) o)
              o)
         o)
    outb.

(** [if (!tiling) ... else ...]. *)
Definition sweep (tiling : bool) (tile_size : Z) (w : wtab) (inb : buf)
    (off S : Z) (outb : buf) : buf :=
  if negb tiling then sweep_untiled w inb off S outb
  else sweep_tiled tile_size w inb off S outb.

(** The value the loop body leaves at its grid point, as a function
    of the value [v] it finds there. *)
Definition point_val (w : wtab) (inb : buf) (off S i j : Z) (v : T) : T :=
  match shape with
  | Star =>
      let v1 := for_ (- RADIUS) (RADIUS + 1)
                  (fun jj v => add v (mul (w 0 jj) (inb (idx off S i (j + jj))))) v in
      let v2 := for_ (- RADIUS) 0
                  (fun ii v => add v (mul (w ii 0) (inb (idx off S (i + ii) j)))) v1 in
      for_ 1 (RADIUS + 1)
        (fun ii v => add v (mul (w ii 0) (inb (idx off S (i + ii) j)))) v2
  | Compact =>
      for_ (- RADIUS) (RADIUS + 1)
        (fun jj v =>
           for_ (- RADIUS) (RADIUS + 1)
             (fun ii v => add v (mul (w ii jj) (inb (idx off S (i + ii) (j + jj))))) v)
        v
  end.

(** The interior of a grid of side [S]. *)
Definition interior (S i j : Z) : bool :=
  (RADIUS <=? i) && (i <? S - RADIUS) && (RADIUS <=? j) && (j <? S - RADIUS).

(** The rectangle [a <= i < b], [c <= j < d]. *)
Definition rect (a b c d i j : Z) : bool :=
  (a <=? i) && (i <? b) && (c <=? j) && (j <? d).

(** [F] changes cell [c] only, to [G] of what it finds there. *)
Definition local_at (c : Z) (F : buf -> buf) (G : T -> T) : Prop :=
  forall o c', F o c' = if c' =? c then G (o c) else o c'.

(** [o'] is [o] with the cell of every point [(i,j)] of the region [P]
    of the grid at [off] of side [S] changed by [pv i j], and every
    other cell left as it was. *)
Definition updates (pv : Z -> Z -> T -> T) (off S : Z)
    (P : Z -> Z -> bool) (o o' : buf) : Prop :=
  forall c,
    o' c =
    if P ((c - off) mod S) ((c - off) / S)
    then pv ((c - off) mod S) ((c - off) / S) (o c)
    else o c.

End Sweep.


(** ** Exact arithmetic *)

Local Open Scope Qc_scope.

(** [DTYPE], read over the rationals. *)
Abbreviation DTYPE := Qc (only parsing).

(** The conversion [(DTYPE) z] of an integer. *)
Definition Zc (z : Z) : DTYPE := Q2Qc (inject_Z z).

(** The conversion [(long) x] of a value: truncation toward zero. *)
Definition trunc (x : DTYPE) : Z := Z.quot (Qnum x) (QDen x).

(** [floor(x)]. *)
Definition floorc (x : DTYPE) : DTYPE := Zc (Qfloor x).

(** Modelled from the spec: [ABS] is a macro of par-res-kern_general.h,
    which is not part of the sources; the spec writes the norm as a sum
    of absolute values. *)
Definition ABS (x : DTYPE) : DTYPE := Qcabs x.

(** [x > y] on values. *)
Definition Qcgtb (x y : DTYPE) : bool :=
  if Qclt_le_dec y x then true else false.

Definition COEFX : DTYPE := 1.
Definition COEFY : DTYPE := 1.

(** [EPSILON], by the macro [DOUBLE]. *)
Definition EPSILON (double : bool) : DTYPE :=
  if double then 1 / Zc 100000000 else 1 / Zc 1000.

(** ** The weight tables (lines 286-316) *)

(** Lines 286-290: the table is cleared. *)
Definition weight_clear (R : Z) (w : wtab (T:=DTYPE)) : wtab :=
  for_ (- R) (R + 1)
    (fun jj w => for_ (- R) (R + 1) (fun ii w => wset w ii jj 0) w) w.

(** Lines 293-296. *)
Definition weight_star (R : Z) (w : wtab (T:=DTYPE)) : wtab :=
  for_ 1 (R + 1)
    (fun ii w =>
       let v := 1 / (Zc 2 * Zc ii * Zc R) in
       let w := wset w ii 0 v in
       let w := wset w 0 ii v in
       let w := wset w (- ii) 0 (- v) in
       wset w 0 (- ii) (- v))
    w.

(** Lines 300-307, the pass of the loop of line 299 for ring [jj]. *)
Definition compact_ring (R jj : Z) (w : wtab (T:=DTYPE)) : wtab :=
  let w :=
    for_ (- jj + 1) jj
      (fun ii w =>
         let v := 1 / (Zc 4 * Zc jj * (Zc 2 * Zc jj - 1) * Zc R) in
         let w := wset w ii jj v in
         let w := wset w ii (- jj) (- v) in
         let w := wset w jj ii v in
         wset w (- jj) ii (- v))
      w in
  let w := wset w jj jj (1 / (Zc 4 * Zc jj * Zc R)) in
  wset w (- jj) (- jj) (- (1 / (Zc 4 * Zc jj * Zc R))).

(** Lines 299-308. *)
Definition weight_compact (R : Z) (w : wtab (T:=DTYPE)) : wtab :=
  for_ 1 (R + 1) (compact_ring R) w.

(** [weight], from whatever the array held before. *)
Definition weight (shape : stencil_shape) (R : Z) (w0 : wtab) : wtab :=
  match shape with
  | Star => weight_star R (weight_clear R w0)
  | Compact => weight_compact R (weight_clear R w0)
  end.

(** [stencil_size] (lines 292 and 298). *)
Definition stencil_size (shape : stencil_shape) (R : Z) : Z :=
  match shape with
  | Star => (4 * R + 1)%Z
  | Compact => ((2 * R + 1) * (2 * R + 1))%Z
  end.

(** Lines 312-316: [weight_r], the table scaled by [expand]. *)
Definition weight_r (R expand : Z) (w : wtab) (wr0 : wtab) : wtab :=
  for_ (- R) (R + 1)
    (fun jj wr =>
       for_ (- R) (R + 1)
         (fun ii wr => wset wr ii jj (w ii jj * Zc expand)) wr)
    wr0.

(** The number of nonzero entries of a table of radius [R]. *)
Definition count_nonzero (R : Z) (w : wtab (T:=DTYPE)) : Z :=
  for_ (- R) (R + 1)
    (fun jj c =>
       for_ (- R) (R + 1)
         (fun ii c => if Qc_eq_dec (w ii jj) 0 then c else (c + 1)%Z) c)
    0%Z.

(** ** Configuration (lines 178-261) *)

Record config : Type := {
  RADIUS : Z;               (* macro *)
  shape : stencil_shape;    (* macro STAR *)
  double : bool;            (* macro DOUBLE *)
  iterations : Z;
  n : Z;
  nr : Z;
  r_level : Z;
  period : Z;
  duration : Z;
  sub_iterations : Z;
  tile_arg : option Z       (* the optional ninth argument *)
}.

(** Lines 216-220. *)
Definition expand (cfg : config) : Z :=
  for_ 0 (r_level cfg) (fun _ e => (e * 2)%Z) 1%Z.

Definition hr (cfg : config) : DTYPE :=
  for_ 0 (r_level cfg) (fun _ h => h / Zc 2) 1.

(** Line 257. *)
Definition nr_true (cfg : config) : Z := (nr cfg * expand cfg + 1)%Z.

(** Lines 241-245; without the ninth argument [tile_size] is never
    read, and [tiling] keeps its initial 0. *)
Definition tiling (cfg : config) : bool :=
  match tile_arg cfg with
  | Some t => if (t <=? 0)%Z || (t >? n cfg)%Z then false else true
  | None => false
  end.

Definition tile_size (cfg : config) : Z :=
  match tile_arg cfg with
  | Some t => if (t <=? 0)%Z || (t >? n cfg)%Z then n cfg else t
  | None => 0%Z
  end.

(** The tests of lines 187-261: [true] when no [ERROR] exit is taken. *)
Definition check_config (cfg : config) : bool :=
  negb (iterations cfg <? 1)%Z
  && negb (n cfg <? 2)%Z
  && negb (nr cfg <? 1)%Z
  && negb (nr cfg >=? n cfg)%Z
  && negb (r_level cfg <? 0)%Z
  && negb (period cfg <? 1)%Z
  && negb ((duration cfg <? 1)%Z || (duration cfg >? period cfg)%Z)
  && negb (sub_iterations cfg <? 1)%Z
  && negb (RADIUS cfg <? 1)%Z
  && negb (2 * RADIUS cfg + 1 >? n cfg)%Z
  && negb (2 * RADIUS cfg + 1 >? nr_true cfg)%Z.

(** Lines 318-319. *)
Definition f_active_points (cfg : config) : DTYPE :=
  Zc (n cfg - 2 * RADIUS cfg) * Zc (n cfg - 2 * RADIUS cfg).

Definition f_active_points_r (cfg : config) : DTYPE :=
  Zc (nr_true cfg - 2 * RADIUS cfg) * Zc (nr_true cfg - 2 * RADIUS cfg).

(** Lines 356-359. *)
Definition rstarti (cfg : config) (g : Z) : Z :=
  if (g =? 0)%Z || (g =? 2)%Z then 0%Z else (n cfg - nr cfg - 1)%Z.

Definition rstartj (cfg : config) (g : Z) : Z :=
  if (g =? 0)%Z || (g =? 3)%Z then 0%Z else (n cfg - nr cfg - 1)%Z.

(** [inr[g]] and [outr[g]] as offsets into their allocation (lines 280-283). *)
Definition roff (cfg : config) (g : Z) : Z :=
  (g * (nr_true cfg * nr_true cfg))%Z.

(** ** Interpolation (lines 91-127) *)

(** [inrg] is the buffer of the refinements and [ro] the offset of the
    refinement being filled; [inb] is the background grid. *)
Definition interpolate (inrg : buf) (ro : Z) (inb : buf)
    (n nr_true rstarti rstartj expand : Z) (hr : DTYPE) : buf :=
  if Qc_eq_dec hr 1 then
    for_ 0 nr_true
      (fun jr b =>
         for_ 0 nr_true
           (fun ir b =>
              upd b (idx ro nr_true ir jr)
                (inb (idx 0 n (ir + rstarti) (jr + rstartj))))
           b)
      inrg
  else
    let rendi := (rstarti + Z.quot (nr_true - 1) expand)%Z in
    (* first, interpolate in x-direction *)
    let xpass :=
      for_step 0 nr_true expand
        (fun jr '(b, jb) =>
           let b :=
             for_ 0 (nr_true - 1)
               (fun ir b =>
                  let xr := Zc rstarti + hr * Zc ir in
                  let ib := trunc xr in
                  let xb := Zc ib in
                  upd b (idx ro nr_true ir jr)
                    (inb (idx 0 n (ib + 1) jb) * (xr - xb)
                     + inb (idx 0 n ib jb) * (xb + 1 - xr)))
               b in
           (upd b (idx ro nr_true (nr_true - 1) jr) (inb (idx 0 n rendi jb)),
            (jb + 1)%Z))
        (inrg, rstartj) in
    (* next, interpolate in y-direction *)
    for_ 0 (nr_true - 1)
      (fun jr b =>
         let yr := hr * Zc jr in
         let jb := trunc yr in
         let jrb := (jb * expand)%Z in
         let jrb1 := ((jb + 1) * expand)%Z in
         let yb := floorc yr in
         for_ 0 nr_true
           (fun ir b =>
              upd b (idx ro nr_true ir jr)
                (b (idx ro nr_true ir jrb1) * (yr - yb)
                 + b (idx ro nr_true ir jrb) * (yb + 1 - yr)))
           b)
      (fst xpass).

(** ** The state of [main] *)

Record state : Type := {
  s_in : buf (T:=DTYPE);
  s_out : buf (T:=DTYPE);
  s_inr : buf (T:=DTYPE);     (* the allocation behind inr[0..3] *)
  s_outr : buf (T:=DTYPE);    (* the allocation behind outr[0..3] *)
  s_weight : wtab (T:=DTYPE);
  s_weight_r : wtab (T:=DTYPE);
  s_g : Z;
  s_num_interpolations : Z
}.

(** [for (j=0; j<S; j++) for (i=0; i<S; i++) B(i,j) += 1.0] on the grid
    at offset [off]. *)
Definition add_one (off S : Z) (b : buf) : buf :=
  for_ 0 S
    (fun j b =>
       for_ 0 S
         (fun i b => upd b (idx off S i j) (b (idx off S i j) + 1)) b)
    b.

(** Lines 286-370: weights, initial fields, layout of the refinements.
    [m] holds what the freshly allocated memory contains. *)
Definition initialize (cfg : config) (m : state) : state :=
  let w := weight (shape cfg) (RADIUS cfg) (s_weight m) in
  let wr := weight_r (RADIUS cfg) (expand cfg) w (s_weight_r m) in
  let R := RADIUS cfg in
  let inb :=
    for_ 0 (n cfg)
      (fun j b =>
         for_ 0 (n cfg)
           (fun i b => upd b (idx 0 (n cfg) i j) (COEFX * Zc i + COEFY * Zc j)) b)
      (s_in m) in
  let outb :=
    for_ R (n cfg - R)
      (fun j b =>
         for_ R (n cfg - R) (fun i b => upd b (idx 0 (n cfg) i j) 0) b)
      (s_out m) in
  let inrb :=
    for_ 0 4
      (fun g b =>
         for_ 0 (nr_true cfg)
           (fun j b =>
              for_ 0 (nr_true cfg)
                (fun i b => upd b (idx (roff cfg g) (nr_true cfg) i j) 0) b)
           b)
      (s_inr m) in
  let outrb :=
    for_ 0 4
      (fun g b =>
         for_ R (nr_true cfg - R)
           (fun j b =>
              for_ R (nr_true cfg - R)
                (fun i b => upd b (idx (roff cfg g) (nr_true cfg) i j) 0) b)
           b)
      (s_outr m) in
  {| s_in := inb; s_out := outb; s_inr := inrb; s_outr := outrb;
     s_weight := w; s_weight_r := wr;
     s_g := 4;                       (* left by the loop of line 362 *)
     s_num_interpolations := 0 |}.

(** Lines 377-382: a refinement comes to life. *)
Definition birth (cfg : config) (iter : Z) (st : state) : state :=
  if (Z.rem iter (period cfg) =? 0)%Z then
    let g := Z.rem (Z.quot iter (period cfg)) 4 in
    {| s_in := s_in st; s_out := s_out st;
       s_inr := interpolate (s_inr st) (roff cfg g) (s_in st) (n cfg)
                  (nr_true cfg) (rstarti cfg g) (rstartj cfg g)
                  (expand cfg) (hr cfg);
       s_outr := s_outr st;
       s_weight := s_weight st; s_weight_r := s_weight_r st;
       s_g := g;
       s_num_interpolations := (s_num_interpolations st + 1)%Z |}
  else st.

(** The test of line 384. *)
Definition in_window (cfg : config) (iter : Z) : bool :=
  (Z.rem iter (period cfg) <? duration cfg)%Z.

(** Lines 384-439: the sub-iterations on the current refinement. *)
Definition refine (cfg : config) (iter : Z) (st : state) : state :=
  if in_window cfg iter then
    let g := s_g st in
    let outrb :=
      for_ 0 (sub_iterations cfg)
        (fun _ o =>
           sweep Qcplus Qcmult (RADIUS cfg) (shape cfg) (tiling cfg)
             (tile_size cfg) (s_weight_r st) (s_inr st) (roff cfg g)
             (nr_true cfg) o)
        (s_outr st) in
    {| s_in := s_in st; s_out := s_out st;
       s_inr := add_one (roff cfg g) (nr_true cfg) (s_inr st);
       s_outr := outrb;
       s_weight := s_weight st; s_weight_r := s_weight_r st;
       s_g := g;
       s_num_interpolations := s_num_interpolations st |}
  else st.

(** Lines 443-495: the stencil on the background grid, then [in += 1]. *)
Definition background (cfg : config) (st : state) : state :=
  {| s_in := add_one 0 (n cfg) (s_in st);
     s_out := sweep Qcplus Qcmult (RADIUS cfg) (shape cfg) (tiling cfg)
                (tile_size cfg) (s_weight st) (s_in st) 0 (n cfg) (s_out st);
     s_inr := s_inr st; s_outr := s_outr st;
     s_weight := s_weight st; s_weight_r := s_weight_r st;
     s_g := s_g st;
     s_num_interpolations := s_num_interpolations st |}.

(** One pass of the loop of line 372. *)
Definition iteration (cfg : config) (iter : Z) (st : state) : state :=
  background cfg (refine cfg iter (birth cfg iter st)).

(** The state at the start of iteration [k]: iterations [0 .. k-1] done. *)
Definition run_to (cfg : config) (k : Z) (m : state) : state :=
  for_ 0 k (iteration cfg) (initialize cfg m).


(** ** The refinement schedule *)

(** The refinement that receives the sub-iterations of iteration
    [iter], if any: the value of [g] after line 382, under the test of
    line 384. *)
Definition active_corner (cfg : config) (m : state) (iter : Z) : option Z :=
  if in_window cfg iter
  then Some (s_g (birth cfg iter (run_to cfg iter m)))
  else None.

(** Refinement [g] is active at iteration [iter]. *)
Definition active (cfg : config) (m : state) (g iter : Z) : bool :=
  match active_corner cfg m iter with
  | Some g' => (g' =? g)%Z
  | None => false
  end.

(** The number of iterations among [lo .. hi-1] at which [g] is active. *)
Definition active_count (cfg : config) (m : state) (g lo hi : Z) : Z :=
  for_ lo hi (fun iter c => if active cfg m g iter then (c + 1)%Z else c) 0%Z.


(** ** Validation (lines 501-578) *)




(** Line 523. *)
Definition reference_norm (cfg : config) : DTYPE :=
  Zc (iterations cfg + 1) * (COEFX + COEFY).

(** Lines 538-539. *)
Definition full_cycles (cfg : config) : Z :=
  Z.quot (iterations cfg + 1) (period cfg * 4).

Definition leftover_iterations (cfg : config) : Z :=
  Z.rem (iterations cfg + 1) (period cfg * 4).

(** Lines 540-541. *)
Definition iterations_r (cfg : config) (g : Z) : Z :=
  (sub_iterations cfg
   * (full_cycles cfg * duration cfg
      + MIN (MAX 0 (leftover_iterations cfg - g * period cfg)) (duration cfg)))%Z.

(** Line 542. *)
Definition reference_norm_r (cfg : config) (g : Z) : DTYPE :=
  Zc (iterations_r cfg g) * (COEFX + COEFY).

(** What the program prints after the loop, and how it ends. *)
Inductive event : Type :=
| ErrorNorm (measured reference : DTYPE)
| ReferenceNorm (reference measured : DTYPE)
| ErrorNormR (g : Z) (measured reference : DTYPE)
| ReferenceNormR (g : Z) (reference measured : DTYPE)
| SolutionDoesNotValidate
| SolutionValidates
| Rate (mflops avgtime : DTYPE).

Inductive exit_status : Type := EXIT_SUCCESS | EXIT_FAILURE.

(** Lines 523-534: the check of the background grid; the second
    component is [validate]. *)
Definition check_background (cfg : config) (verbose : bool) (nrm : DTYPE)
    : list event * bool :=
  if Qcgtb (ABS (nrm - reference_norm cfg)) (EPSILON (double cfg))
  then ((ErrorNorm nrm (reference_norm cfg) :: nil)%list, false)
  else ((if verbose then ReferenceNorm (reference_norm cfg) nrm :: nil else nil)%list,
        true).

(** Lines 537-554: the checks of the four refinements. *)
Definition check_refinements (cfg : config) (verbose : bool)
    (nrm_r : Z -> DTYPE) (acc : list event * bool) : list event * bool :=
  for_ 0 4
    (fun g '(out, validate) =>
       if Qcgtb (ABS (nrm_r g - reference_norm_r cfg g)) (EPSILON (double cfg))
       then ((out ++ ErrorNormR g (nrm_r g) (reference_norm_r cfg g) :: nil)%list, false)
       else ((if verbose
              then (out ++ ReferenceNormR g (reference_norm_r cfg g) (nrm_r g) :: nil)%list
              else out), validate))
    acc.

(** Lines 563-573: the operation count.  [iterations_r[0]] is
    decremented at line 565, after the checks above. *)
Definition flops (cfg : config) (num_interpolations : Z) : DTYPE :=
  let f0 := f_active_points cfg * Zc (iterations cfg) in
  let it_r := fun g => if (g =? 0)%Z then (iterations_r cfg 0 - 1)%Z
                       else iterations_r cfg g in
  let f1 := for_ 0 4 (fun g f => f + f_active_points_r cfg * Zc (it_r g)) f0 in
  let f2 := f1 * Zc (2 * stencil_size (shape cfg) (RADIUS cfg) + 1) in
  if (r_level cfg >? 0)%Z then
    f2 + Zc (nr_true cfg * (num_interpolations - 1) * 3 * (nr_true cfg + nr cfg))
  else f2.

(** Lines 523-578: everything after the norms are known.
    [stencil_time] is the elapsed time measured around the loop. *)
Definition analyze (cfg : config) (verbose : bool) (nrm : DTYPE)
    (nrm_r : Z -> DTYPE) (num_interpolations : Z) (stencil_time : DTYPE)
    : list event * exit_status :=
  let '(out, validate) :=
    check_refinements cfg verbose nrm_r (check_background cfg verbose nrm) in
  if negb validate then
    ((out ++ SolutionDoesNotValidate :: nil)%list, EXIT_FAILURE)
  else
    let fl := flops cfg num_interpolations in
    let avgtime := stencil_time / Zc (iterations cfg) in
    ((out ++ SolutionValidates
          :: Rate (Zc 1 / Zc 1000000 * fl / stencil_time) avgtime :: nil)%list,
     EXIT_SUCCESS).


(** An event that gives the throughput. *)
Definition is_rate (e : event) : bool :=
  match e with Rate _ _ => true | _ => false end.

(** The number of iterations among [lo .. hi-1] at which [g] is dormant. *)
Definition dormant_count (cfg : config) (m : state) (g lo hi : Z) : Z :=
  for_ lo hi (fun iter c => if active cfg m g iter then c else (c + 1)%Z) 0%Z.

(** The closed form of lines 538-541 for a run of [N] iterations: the
    full cycles and the clamped share of the partial one. *)
Definition count_expected (p d g N : Z) : Z :=
  (N / (p * 4) * d + Z.min (Z.max 0 (N mod (p * 4) - g * p)) d)%Z.

(** ** Sums and the weights in closed form *)


(** The weight of the star stencil at distance [k] along an axis. *)
Definition star_arm (R k : Z) : DTYPE :=
  if (k >? 0)%Z then 1 / (Zc 2 * Zc k * Zc R)
  else - (1 / (Zc 2 * Zc (- k) * Zc R)).

(** The star table in closed form. *)
Definition star_w (R x y : Z) : DTYPE :=
  if (x =? 0)%Z then (if (y =? 0)%Z then 0 else star_arm R y)
  else if (y =? 0)%Z then star_arm R x
  else 0.

(** The ring of the compact stencil a table cell lies on. *)
Definition ring (x y : Z) : Z := Z.max (Z.abs x) (Z.abs y).

(** The two weights of ring [jj] of the compact stencil. *)
Definition compact_side (R jj : Z) : DTYPE :=
  1 / (Zc 4 * Zc jj * (Zc 2 * Zc jj - 1) * Zc R).

Definition compact_corner (R jj : Z) : DTYPE :=
  1 / (Zc 4 * Zc jj * Zc R).

(** The cells of the rows and columns of ring [jj] whose free
    coordinate is below [t]. *)
Definition on_side (jj t x y : Z) : bool :=
  (((y =? jj) || (y =? - jj)) && (- jj <? x) && (x <? jj) && (x <? t)
   || ((x =? jj) || (x =? - jj)) && (- jj <? y) && (y <? jj) && (y <? t))%Z.

Definition side_val (R jj x y : Z) : DTYPE :=
  if (y =? jj)%Z then compact_side R jj
  else if (y =? - jj)%Z then - compact_side R jj
  else if (x =? jj)%Z then compact_side R jj
  else - compact_side R jj.

(** The cells written for ring [jj], and what is written there. *)
Definition on_ring (jj x y : Z) : bool :=
  ((x =? - jj) && (y =? - jj) || (x =? jj) && (y =? jj))%Z
  || on_side jj jj x y.

Definition ring_val (R jj x y : Z) : DTYPE :=
  if ((x =? - jj) && (y =? - jj))%Z then - compact_corner R jj
  else if ((x =? jj) && (y =? jj))%Z then compact_corner R jj
  else side_val R jj x y.

(** The buffer [inb] holds the field [a*i + b*j + c0] on the grid at
    [off] of side [S]. *)
Definition linear_field (off S : Z) (a b c0 : DTYPE) (inb : buf) : Prop :=
  forall x y, (0 <= x < S)%Z -> (0 <= y < S)%Z ->
              inb (idx off S x y) = a * Zc x + b * Zc y + c0.

(** ** Sample inputs *)

(** Memory as [malloc] might return it: every cell holds the same junk. *)
Definition junk_memory : state :=
  {| s_in := fun _ => Zc 7; s_out := fun _ => Zc (-3);
     s_inr := fun _ => Zc 5; s_outr := fun _ => Zc 11;
     s_weight := fun _ _ => Zc 9; s_weight_r := fun _ _ => Zc 13;
     s_g := 0; s_num_interpolations := 0 |}.

(** [amr 5 8 3 1 2 1 2], built with [RADIUS=1], star, double. *)
Definition sample_config : config :=
  {| RADIUS := 1; shape := Star; double := true;
     iterations := 5; n := 8; nr := 3; r_level := 1;
     period := 2; duration := 1; sub_iterations := 2; tile_arg := None |}.

(** [amr 5 8 3 1 2 1 2 3], the same with tiles of side 3. *)
Definition sample_config_tiled : config :=
  {| RADIUS := 1; shape := Compact; double := true;
     iterations := 5; n := 8; nr := 3; r_level := 1;
     period := 2; duration := 1; sub_iterations := 2; tile_arg := Some 3%Z |}.

(** * Properties *)

Local Open Scope Z_scope.

(** ** Loops *)

Lemma Zrange_nil (lo hi : Z) : hi <= lo -> Zrange lo hi = [].
Proof.
  intros H. unfold Zrange.
  replace (Z.to_nat (hi - lo)) with O by lia. reflexivity.
Qed.

Lemma Zrange_snoc (lo hi : Z) :
  lo <= hi -> Zrange lo (hi + 1) = Zrange lo hi ++ [hi].
Proof.
  intros H. unfold Zrange.
  replace (Z.to_nat (hi + 1 - lo)) with (Z.to_nat (hi - lo) + 1)%nat by lia.
  rewrite seq_app, map_app. cbn [seq map]. f_equal. f_equal. lia.
Qed.


Lemma for_nil {A : Type} (lo hi : Z) (body : Z -> A -> A) (s : A) :
  hi <= lo -> for_ lo hi body s = s.
Proof. intros H. unfold for_. now rewrite Zrange_nil. Qed.

Lemma for_snoc {A : Type} (lo hi : Z) (body : Z -> A -> A) (s : A) :
  lo <= hi -> for_ lo (hi + 1) body s = body hi (for_ lo hi body s).
Proof.
  intros H. unfold for_. rewrite Zrange_snoc by assumption.
  now rewrite fold_left_app.
Qed.


(** The loop-invariant rule for a unit-stride loop. *)
Lemma for_ind {A : Type} (Inv : Z -> A -> Prop) (lo hi : Z)
    (body : Z -> A -> A) (s : A) :
  lo <= hi ->
  Inv lo s ->
  (forall k s', lo <= k < hi -> Inv k s' -> Inv (k + 1) (body k s')) ->
  Inv hi (for_ lo hi body s).
Proof.
  intros Hle H0 Hstep.
  assert (G : forall m : nat, lo + Z.of_nat m <= hi ->
                Inv (lo + Z.of_nat m) (for_ lo (lo + Z.of_nat m) body s)).
  { induction m as [|m IH]; intros Hm.
    - rewrite Z.add_0_r, for_nil by lia. exact H0.
    - replace (lo + Z.of_nat (S m)) with (lo + Z.of_nat m + 1) by lia.
      rewrite for_snoc by lia. apply Hstep; [lia|]. apply IH. lia. }
  specialize (G (Z.to_nat (hi - lo))).
  replace (lo + Z.of_nat (Z.to_nat (hi - lo))) with hi in G by lia.
  apply G. lia.
Qed.

(** Two loops with bodies that agree on the range compute the same. *)
Lemma for_ext {A : Type} (lo hi : Z) (f g : Z -> A -> A) (s : A) :
  (forall k s', lo <= k < hi -> f k s' = g k s') ->
  for_ lo hi f s = for_ lo hi g s.
Proof.
  intros H. destruct (Z_le_gt_dec lo hi) as [Hle|Hgt].
  - apply (for_ind (fun k r => r = for_ lo k g s) lo hi f s Hle).
    + now rewrite for_nil by lia.
    + intros k s' Hk ->. rewrite for_snoc by lia. apply H. exact Hk.
  - now rewrite !for_nil by lia.
Qed.

(** Fuel beyond the distance to the bound changes nothing. *)
Lemma for_step_fuel_enough {A : Type} (hi st : Z) (body : Z -> A -> A) :
  1 <= st ->
  forall (f1 f2 : nat) (t : Z) (s : A),
    (Z.to_nat (hi - t) <= f1)%nat -> (Z.to_nat (hi - t) <= f2)%nat ->
    for_step_fuel f1 t hi st body s = for_step_fuel f2 t hi st body s.
Proof.
  intros Hst. induction f1 as [|f1 IH]; intros f2 t s H1 H2.
  - destruct f2 as [|f2]; [reflexivity|]. cbn [for_step_fuel].
    destruct (Z.ltb_spec t hi); [lia|reflexivity].
  - destruct f2 as [|f2]; cbn [for_step_fuel].
    + destruct (Z.ltb_spec t hi); [lia|reflexivity].
    + destruct (Z.ltb_spec t hi); [|reflexivity].
      apply IH; lia.
Qed.

(** A strided loop unfolds like the C loop it stands for. *)
Lemma for_step_unfold {A : Type} (lo hi st : Z) (body : Z -> A -> A) (s : A) :
  1 <= st ->
  for_step lo hi st body s =
  if lo <? hi then for_step (lo + st) hi st body (body lo s) else s.
Proof.
  intros Hst. unfold for_step.
  destruct (Z.ltb_spec lo hi) as [Hlt|Hge].
  - destruct (Z.to_nat (hi - lo)) as [|f] eqn:E; [lia|].
    cbn [for_step_fuel]. destruct (Z.ltb_spec lo hi); [|lia].
    apply for_step_fuel_enough; [assumption|lia|lia].
  - replace (Z.to_nat (hi - lo)) with O by lia. reflexivity.
Qed.

(** The loop-invariant rule for a strided loop: the loop ends, at some
    index at or beyond the bound, with the invariant. *)
Lemma for_step_ind {A : Type} (Inv : Z -> A -> Prop) (lo hi st : Z)
    (body : Z -> A -> A) (s : A) :
  1 <= st ->
  Inv lo s ->
  (forall k s', lo <= k < hi -> Inv k s' -> Inv (k + st) (body k s')) ->
  exists k, lo <= k /\ hi <= k /\ Inv k (for_step lo hi st body s).
Proof.
  intros Hst H0 Hstep. unfold for_step.
  assert (G : forall (fuel : nat) (t : Z) (s' : A),
             (Z.to_nat (hi - t) <= fuel)%nat -> lo <= t -> Inv t s' ->
             exists k, lo <= k /\ hi <= k /\
                       Inv k (for_step_fuel fuel t hi st body s')).
  { induction fuel as [|fuel IH]; intros t s' Hf Ht Hi; cbn [for_step_fuel].
    - exists t. repeat split; [lia|lia|assumption].
    - destruct (Z.ltb_spec t hi) as [Hlt|Hge].
      + apply IH; [lia|lia|]. apply Hstep; [lia|assumption].
      + exists t. repeat split; [lia|lia|assumption]. }
  apply G; [lia|lia|assumption].
Qed.

Lemma MIN_min (a b : Z) : MIN a b = Z.min a b.
Proof. unfold MIN. destruct (Z.ltb_spec a b); lia. Qed.


(** ** Regions of a grid *)

(** Boolean tests as propositions, then linear arithmetic. *)
Ltac bool_lia :=
  repeat match goal with
         | H : _ = true |- _ =>
             rewrite ?andb_true_iff, ?orb_true_iff, ?negb_true_iff,
               ?Z.leb_le, ?Z.ltb_lt, ?Z.eqb_eq, ?Z.geb_le, ?Z.gtb_gt in H
         | H : _ = false |- _ =>
             rewrite ?andb_false_iff, ?orb_false_iff, ?negb_false_iff,
               ?Z.leb_gt, ?Z.ltb_ge, ?Z.eqb_neq in H
         end;
  try match goal with
      | |- @eq bool _ _ => apply eq_iff_eq_true
      end;
  rewrite ?andb_true_iff, ?orb_true_iff, ?negb_true_iff,
    ?Z.leb_le, ?Z.ltb_lt, ?Z.eqb_eq, ?Z.geb_le, ?Z.gtb_gt;
  lia.

(** A cell index determines its grid point. *)
Lemma idx_decode (off S i j : Z) :
  0 <= i < S ->
  (idx off S i j - off) mod S = i /\ (idx off S i j - off) / S = j.
Proof.
  intros Hi. unfold idx.
  replace (off + (i + j * S) - off) with (i + j * S) by lia.
  rewrite Z.mod_add, Z.div_add by lia.
  rewrite Z.mod_small, Z.div_small by lia. lia.
Qed.

Lemma idx_encode (off S c : Z) :
  0 < S -> c = idx off S ((c - off) mod S) ((c - off) / S).
Proof.
  intros HS. unfold idx.
  pose proof (Z.div_mod (c - off) S ltac:(lia)). lia.
Qed.

Section Regions.

Context {T : Type}.
Implicit Types (o : buf (T:=T)) (pv : Z -> Z -> T -> T).

Lemma local_at_comp (c : Z) (F1 F2 : buf -> buf) (G1 G2 : T -> T) :
  local_at c F1 G1 -> local_at c F2 G2 ->
  local_at c (fun o => F2 (F1 o)) (fun v => G2 (G1 v)).
Proof.
  intros H1 H2 o c'. rewrite H2, !H1, Z.eqb_refl.
  destruct (c' =? c); reflexivity.
Qed.

Lemma local_at_for (c : Z) (lo hi : Z) (body : Z -> buf -> buf)
    (g : Z -> T -> T) :
  (forall k, local_at c (body k) (g k)) ->
  local_at c (for_ lo hi body) (for_ lo hi g).
Proof.
  intros H o c'. destruct (Z_le_gt_dec lo hi) as [Hle|Hgt].
  - revert c'.
    apply (for_ind
             (fun k r => forall c', r c' = if c' =? c then for_ lo k g (o c)
                                           else o c') lo hi body o Hle).
    + intros c'. rewrite for_nil by lia. destruct (c' =? c) eqn:E; [|easy].
      apply Z.eqb_eq in E. now subst.
    + intros k s' Hk IH c'. rewrite H, for_snoc by lia.
      rewrite (IH c), Z.eqb_refl, (IH c').
      destruct (c' =? c); reflexivity.
  - rewrite !for_nil by lia. destruct (c' =? c) eqn:E; [|easy].
    apply Z.eqb_eq in E. now subst.
Qed.

Lemma local_at_upd (c : Z) (G : T -> T) :
  local_at c (fun o => upd o c (G (o c))) G.
Proof. intros o c'. reflexivity. Qed.

(** A change local to the cell of [(i,j)] is an update of the
    one-point region. *)
Lemma local_updates pv (off S i j : Z) (F : buf -> buf) o :
  0 <= i < S ->
  local_at (idx off S i j) F (pv i j) ->
  updates pv off S (fun x y => (x =? i) && (y =? j)) o (F o).
Proof.
  intros Hi HF c. rewrite HF.
  destruct (c =? idx off S i j) eqn:E.
  - apply Z.eqb_eq in E. subst c.
    destruct (idx_decode off S i j Hi) as [-> ->].
    now rewrite !Z.eqb_refl.
  - destruct (_ && _) eqn:E'; [|reflexivity].
    exfalso. apply Z.eqb_neq in E. apply E.
    rewrite (idx_encode off S c) by lia.
    apply andb_true_iff in E'. destruct E' as [E1 E2].
    apply Z.eqb_eq in E1, E2. now rewrite E1, E2.
Qed.

Lemma updates_empty pv (off S : Z) (P : Z -> Z -> bool) o :
  (forall x y, P x y = false) -> updates pv off S P o o.
Proof. intros H c. now rewrite H. Qed.

(** Updates of two disjoint regions, one after the other. *)
Lemma updates_union pv (off S : Z) (P Q PQ : Z -> Z -> bool) o o1 o2 :
  updates pv off S P o o1 ->
  updates pv off S Q o1 o2 ->
  (forall x y, P x y = true -> Q x y = true -> False) ->
  (forall x y, PQ x y = P x y || Q x y) ->
  updates pv off S PQ o o2.
Proof.
  intros H1 H2 Hd Hu c. rewrite H2, H1, Hu.
  destruct (P _ _) eqn:EP, (Q _ _) eqn:EQ; try reflexivity.
  exfalso. eapply Hd; eassumption.
Qed.

(** A unit-stride loop whose pass [k] updates the slice [Pk k] updates
    the union of the slices. *)
Lemma updates_for pv (off S : Z) (Pk : Z -> Z -> Z -> bool)
    (Acc : Z -> Z -> Z -> bool) (lo hi : Z) (body : Z -> buf -> buf) o :
  lo <= hi ->
  (forall x y, Acc lo x y = false) ->
  (forall k o', lo <= k < hi -> updates pv off S (Pk k) o' (body k o')) ->
  (forall k x y, lo <= k < hi -> Acc k x y = true -> Pk k x y = true -> False) ->
  (forall k x y, lo <= k < hi -> Acc (k + 1) x y = Acc k x y || Pk k x y) ->
  updates pv off S (Acc hi) o (for_ lo hi body o).
Proof.
  intros Hle H0 Hb Hd Hu.
  apply (for_ind (fun k r => updates pv off S (Acc k) o r) lo hi body o Hle).
  - now apply updates_empty.
  - intros k s' Hk IH.
    eapply updates_union; [exact IH|apply Hb; exact Hk|..].
    + intros x y. now apply Hd.
    + intros x y. now apply Hu.
Qed.

(** The same for a strided loop; the slices are accumulated up to the
    bound [hi]. *)
Lemma updates_for_step pv (off S : Z) (Pk : Z -> Z -> Z -> bool)
    (Acc : Z -> Z -> Z -> bool) (lo hi st : Z) (body : Z -> buf -> buf) o :
  1 <= st ->
  (forall x y, Acc lo x y = false) ->
  (forall k o', lo <= k < hi -> updates pv off S (Pk k) o' (body k o')) ->
  (forall k x y, lo <= k < hi -> Acc k x y = true -> Pk k x y = true -> False) ->
  (forall k x y, lo <= k < hi -> Acc (k + st) x y = Acc k x y || Pk k x y) ->
  (forall k x y, hi <= k -> Acc k x y = Acc hi x y) ->
  updates pv off S (Acc hi) o (for_step lo hi st body o).
Proof.
  intros Hst H0 Hb Hd Hu Hend.
  destruct (for_step_ind (fun k r => updates pv off S (Acc k) o r)
              lo hi st body o Hst) as (k & Hk1 & Hk2 & Hk).
  - now apply updates_empty.
  - intros k s' Hk IH.
    eapply updates_union; [exact IH|apply Hb; exact Hk|..].
    + intros x y. now apply Hd.
    + intros x y. now apply Hu.
  - intros c. rewrite (Hk c), Hend by assumption. reflexivity.
Qed.

(** A doubly nested unit-stride loop over [a <= i < b], [c <= j < d]
    whose body is local to the cell of [(i,j)]. *)
Lemma updates_block pv (off S a b c d : Z) (body : Z -> Z -> buf -> buf) o :
  0 <= a -> b <= S ->
  (forall i j, local_at (idx off S i j) (body i j) (pv i j)) ->
  updates pv off S (rect a b c d) o
    (for_ c d (fun j o => for_ a b (fun i o => body i j o) o) o).
Proof.
  intros Ha Hb Hloc.
  destruct (Z_le_gt_dec c d) as [Hcd|Hcd];
    [|rewrite for_nil by lia; apply updates_empty; intros; unfold rect; bool_lia].
  destruct (Z_le_gt_dec a b) as [Hab|Hab].
  2:{ rewrite (for_ext c d _ (fun _ o => o)).
      - replace (for_ c d (fun _ o => o) o) with o.
        + apply updates_empty; intros; unfold rect; bool_lia.
        + symmetry. apply (for_ind (fun _ r => r = o) c d _ o Hcd); auto.
      - intros. now rewrite for_nil by lia. }
  apply (updates_for pv off S (fun k => rect a b k (k + 1))
           (fun k => rect a b c k)); try assumption.
  - intros; unfold rect; bool_lia.
  - intros j o' Hj.
    apply (updates_for pv off S (fun k x y => (x =? k) && (y =? j))
             (fun k => rect a k j (j + 1))); try assumption.
    + intros; unfold rect; bool_lia.
    + intros i o'' Hi. apply local_updates; [lia|apply Hloc].
    + intros k x y Hk. unfold rect. intros H1 H2. bool_lia.
    + intros k x y Hk. unfold rect. bool_lia.
  - intros k x y Hk. unfold rect. intros H1 H2. bool_lia.
  - intros k x y Hk. unfold rect. bool_lia.
Qed.

End Regions.

(** ** The stencil sweeps *)

Section SweepFacts.

Context {T : Type}.
Variable add mul : T -> T -> T.
Variable R : Z.
Variable sh : stencil_shape.
Variable w : wtab (T:=T).
Variable inb : buf (T:=T).
Variable off S : Z.

Lemma accum_local (i j wi wj di dj : Z) :
  local_at (idx off S i j)
    (accum add mul w inb off S i j wi wj di dj)
    (fun v => add v (mul (w wi wj) (inb (idx off S (i + di) (j + dj))))).
Proof. intros o c'. reflexivity. Qed.

(** The loop body touches the cell of its own point only. *)
Lemma point_local (i j : Z) :
  local_at (idx off S i j)
    (point add mul R sh w inb off S i j)
    (point_val add mul R sh w inb off S i j).
Proof.
  unfold point, point_val. destruct sh.
  - apply (local_at_comp _
             (fun o => for_ (- R) 0 _ (for_ (- R) (R + 1) _ o))
             (for_ 1 (R + 1) _)
             (fun v => for_ (- R) 0 _ (for_ (- R) (R + 1) _ v))
             (for_ 1 (R + 1) _)).
    + apply (local_at_comp _ (for_ (- R) (R + 1) _) (for_ (- R) 0 _)
               (for_ (- R) (R + 1) _) (for_ (- R) 0 _)).
      * apply local_at_for. intros jj o c'.
        rewrite accum_local, Z.add_0_r. reflexivity.
      * apply local_at_for. intros ii o c'.
        rewrite accum_local, Z.add_0_r. reflexivity.
    + apply local_at_for. intros ii o c'.
      rewrite accum_local, Z.add_0_r. reflexivity.
  - apply local_at_for. intros jj.
    apply local_at_for. intros ii. apply accum_local.
Qed.

Hypothesis R_nonneg : 0 <= R.

(** The untiled sweep runs the loop body once at every interior point. *)
Lemma sweep_untiled_updates (o : buf) :
  updates (point_val add mul R sh w inb off S) off S (interior R S) o
    (sweep_untiled add mul R sh w inb off S o).
Proof.
  unfold sweep_untiled.
  pose proof (updates_block (point_val add mul R sh w inb off S) off S
                R (S - R) R (S - R)
                (fun i j => point add mul R sh w inb off S i j) o
                R_nonneg ltac:(lia) point_local) as H.
  intros c. rewrite (H c). unfold rect, interior. reflexivity.
Qed.

(** So does the tiled sweep, whatever the positive tile size. *)
Lemma sweep_tiled_updates (ts : Z) (o : buf) :
  1 <= ts ->
  updates (point_val add mul R sh w inb off S) off S (interior R S) o
    (sweep_tiled add mul R sh ts w inb off S o).
Proof.
  intros Hts. unfold sweep_tiled.
  set (pv := point_val add mul R sh w inb off S).
  set (hi := S - R).
  assert (E : forall x y, interior R S x y = rect R hi R (Z.min hi hi) x y).
  { intros; unfold interior, rect, hi. rewrite Z.min_id. reflexivity. }
  intros c. rewrite E. revert c.
  apply (updates_for_step pv off S
           (fun jt => rect R hi jt (Z.min hi (jt + ts)))
           (fun jt => rect R hi R (Z.min hi jt)));
    try assumption.
  - intros; unfold rect; bool_lia.
  - intros jt o' Hjt.
    assert (E' : forall x y,
               rect R hi jt (Z.min hi (jt + ts)) x y =
               rect R (Z.min hi hi) jt (Z.min hi (jt + ts)) x y).
    { intros; rewrite Z.min_id; reflexivity. }
    intros c. rewrite E'. revert c.
    apply (updates_for_step pv off S
             (fun it => rect it (Z.min hi (it + ts)) jt (Z.min hi (jt + ts)))
             (fun it => rect R (Z.min hi it) jt (Z.min hi (jt + ts))));
      try assumption.
    + intros; unfold rect; bool_lia.
    + intros it o'' Hit. rewrite !MIN_min.
      apply (updates_block pv off S it (Z.min hi (it + ts)) jt
               (Z.min hi (jt + ts))
               (fun i j => point add mul R sh w inb off S i j));
        [lia|unfold hi; lia|apply point_local].
    + intros k x y Hk. unfold rect. intros H1 H2. bool_lia.
    + intros k x y Hk. unfold rect. bool_lia.
    + intros k x y Hk. unfold rect. bool_lia.
  - intros k x y Hk. unfold rect. intros H1 H2. bool_lia.
  - intros k x y Hk. unfold rect. bool_lia.
  - intros k x y Hk. unfold rect. bool_lia.
Qed.

(** Whichever loop order is selected. *)
Lemma sweep_updates (tl : bool) (ts : Z) (o : buf) :
  (tl = true -> 1 <= ts) ->
  updates (point_val add mul R sh w inb off S) off S (interior R S) o
    (sweep add mul R sh tl ts w inb off S o).
Proof.
  intros Hts. unfold sweep. destruct tl; cbn [negb].
  - apply sweep_tiled_updates. now apply Hts.
  - apply sweep_untiled_updates.
Qed.

(** The value of a swept buffer at a grid point. *)
Lemma sweep_at (tl : bool) (ts : Z) (o : buf) (i j : Z) :
  (tl = true -> 1 <= ts) ->
  0 <= i < S ->
  sweep add mul R sh tl ts w inb off S o (idx off S i j) =
  if interior R S i j
  then point_val add mul R sh w inb off S i j (o (idx off S i j))
  else o (idx off S i j).
Proof.
  intros Hts Hi. rewrite (sweep_updates tl ts o Hts).
  destruct (idx_decode off S i j Hi) as [-> ->]. reflexivity.
Qed.

End SweepFacts.

(** ** The refinement schedule *)

(** The position of iteration [k] in the cycle of four periods: cycle
    [q], period [u] of the cycle, offset [v] in the period. *)
Lemma cycle_pos (p k : Z) :
  1 <= p -> 0 <= k ->
  exists q u v, 0 <= q /\ 0 <= u < 4 /\ 0 <= v < p /\ k = p * (4 * q + u) + v.
Proof.
  intros Hp Hk.
  exists (k / p / 4), ((k / p) mod 4), (k mod p).
  pose proof (Z.div_mod k p ltac:(lia)) as E1.
  pose proof (Z.div_mod (k / p) 4 ltac:(lia)) as E2.
  pose proof (Z.mod_pos_bound k p ltac:(lia)).
  pose proof (Z.mod_pos_bound (k / p) 4 ltac:(lia)).
  pose proof (Z.div_pos k p Hk ltac:(lia)) as Hq.
  pose proof (Z.div_pos (k / p) 4 Hq ltac:(lia)).
  repeat split; lia.
Qed.

Lemma cycle_pos_facts (p k q u v : Z) :
  1 <= p -> 0 <= u < 4 -> 0 <= v < p -> k = p * (4 * q + u) + v ->
  k / p = 4 * q + u /\ k mod p = v /\ (k / p) mod 4 = u /\
  k / (p * 4) = q /\ k mod (p * 4) = p * u + v.
Proof.
  intros Hp Hu Hv E.
  assert (E1 : k / p = 4 * q + u)
    by (symmetry; apply (Z.div_unique k p (4 * q + u) v); [lia|exact E]).
  assert (E2 : k mod p = v)
    by (symmetry; apply (Z.mod_unique k p (4 * q + u) v); [lia|exact E]).
  assert (B : 0 <= p * u + v < p * 4) by nia.
  repeat split.
  - exact E1.
  - exact E2.
  - rewrite E1. symmetry. apply (Z.mod_unique (4 * q + u) 4 q u); lia.
  - symmetry. apply (Z.div_unique k (p * 4) q (p * u + v)); [lia|]. lia.
  - symmetry. apply (Z.mod_unique k (p * 4) q (p * u + v)); [lia|]. lia.
Qed.

(** One more iteration adds one to the closed form exactly when the
    iteration is in the window of refinement [g]. *)
Lemma count_expected_succ (p d g k : Z) :
  1 <= p -> 1 <= d <= p -> 0 <= g < 4 -> 0 <= k ->
  count_expected p d g (k + 1) =
  count_expected p d g k
  + (if (k mod p <? d) && ((k / p) mod 4 =? g) then 1 else 0).
Proof.
  intros Hp Hd Hg Hk.
  destruct (cycle_pos p k Hp Hk) as (q & u & v & Hq & Hu & Hv & E).
  destruct (cycle_pos_facts p k q u v Hp Hu Hv E) as (F1 & F2 & F3 & F4 & F5).
  assert (E' : exists q' u' v',
             0 <= u' < 4 /\ 0 <= v' < p /\ k + 1 = p * (4 * q' + u') + v' /\
             ((v + 1 < p /\ q' = q /\ u' = u /\ v' = v + 1) \/
              (v + 1 = p /\ u < 3 /\ q' = q /\ u' = u + 1 /\ v' = 0) \/
              (v + 1 = p /\ u = 3 /\ q' = q + 1 /\ u' = 0 /\ v' = 0))).
  { destruct (Z_lt_ge_dec (v + 1) p) as [Hlt|Hge].
    - exists q, u, (v + 1). repeat split; try lia.
    - destruct (Z_lt_ge_dec u 3) as [Hu3|Hu3].
      + exists q, (u + 1), 0. repeat split; try lia.
      + assert (u = 3) by lia. subst u.
        exists (q + 1), 0, 0. repeat split; try lia. }
  destruct E' as (q' & u' & v' & Hu' & Hv' & E' & Hcase).
  destruct (cycle_pos_facts p (k + 1) q' u' v' Hp Hu' Hv' E')
    as (_ & _ & _ & G4 & G5).
  unfold count_expected. rewrite F2, F3, F4, F5, G4, G5.
  assert (Hgc : g = 0 \/ g = 1 \/ g = 2 \/ g = 3) by lia.
  assert (Huc : u = 0 \/ u = 1 \/ u = 2 \/ u = 3) by lia.
  destruct (Z.ltb_spec v d), (Z.eqb_spec u g); cbn [andb];
    destruct Hgc as [->|[->|[->| ->]]];
    destruct Huc as [->|[->|[->| ->]]];
    destruct Hcase as [(?&?&?&?)|[(?&?&?&?&?)|(?&?&?&?&?)]]; subst;
    lia.
Qed.

(** A further full cycle adds [d] to the closed form. *)
Lemma count_expected_cycle (p d g k : Z) :
  1 <= p -> 0 <= k ->
  count_expected p d g (k + 4 * p) = count_expected p d g k + d.
Proof.
  intros Hp Hk. unfold count_expected.
  replace (k + 4 * p) with (k + 1 * (p * 4)) by lia.
  rewrite Z.div_add, Z.mod_add by lia. lia.
Qed.


Section Schedule.

Variable cfg : config.
Variable m : state.
Hypothesis period_pos : 1 <= period cfg.

Lemma s_g_background (st : state) : s_g (background cfg st) = s_g st.
Proof. reflexivity. Qed.

Lemma s_g_refine (iter : Z) (st : state) : s_g (refine cfg iter st) = s_g st.
Proof. unfold refine. destruct (in_window cfg iter); reflexivity. Qed.

Lemma s_g_birth (iter : Z) (st : state) :
  s_g (birth cfg iter st) =
  if Z.rem iter (period cfg) =? 0
  then Z.rem (Z.quot iter (period cfg)) 4
  else s_g st.
Proof. unfold birth. destruct (_ =? 0); reflexivity. Qed.


(** After line 382, [g] names the period of the cycle the iteration
    falls in. *)
Lemma s_g_scheduled (k : Z) :
  0 <= k ->
  s_g (birth cfg k (run_to cfg k m)) = (k / period cfg) mod 4.
Proof.
  intros Hk. unfold run_to.
  apply (for_ind
           (fun k st => s_g (birth cfg k st) = (k / period cfg) mod 4)
           0 k (iteration cfg) (initialize cfg m) Hk).
  - rewrite s_g_birth. rewrite Z.rem_0_l, Z.quot_0_l by lia.
    rewrite Z.div_0_l by lia. reflexivity.
  - intros i st Hi IH. rewrite s_g_birth.
    rewrite Z.rem_mod_nonneg by lia.
    destruct (cycle_pos (period cfg) i period_pos ltac:(lia))
      as (q & u & v & Hq & Hu & Hv & E).
    destruct (cycle_pos_facts _ _ _ _ _ period_pos Hu Hv E)
      as (F1 & F2 & F3 & _ & _).
    destruct (Z.eqb_spec ((i + 1) mod period cfg) 0) as [E0|E0].
    + rewrite Z.quot_div_nonneg, Z.rem_mod_nonneg; try lia.
      apply Z.div_pos; lia.
    + unfold iteration. rewrite s_g_background, s_g_refine, IH.
      rewrite F3.
      assert (Hv1 : v + 1 < period cfg).
      { destruct (Z_lt_ge_dec (v + 1) (period cfg)) as [|Hge]; [assumption|].
        exfalso. apply E0.
        replace (i + 1) with (0 + (4 * q + u + 1) * period cfg) by lia.
        rewrite Z.mod_add by lia. apply Z.mod_0_l. lia. }
      destruct (cycle_pos_facts (period cfg) (i + 1) q u (v + 1)
                  period_pos Hu ltac:(lia) ltac:(lia))
        as (_ & _ & G3 & _ & _).
      now rewrite G3.
Qed.

(** Refinement [g] is active at [k] when [k] is in the window of its
    period of the cycle. *)
Lemma active_spec (g k : Z) :
  0 <= k ->
  active cfg m g k =
  (k mod period cfg <? duration cfg) && ((k / period cfg) mod 4 =? g).
Proof.
  intros Hk. unfold active, active_corner, in_window.
  rewrite Z.rem_mod_nonneg by lia.
  destruct (_ <? _); [|reflexivity].
  now rewrite s_g_scheduled.
Qed.

Hypothesis duration_ok : 1 <= duration cfg <= period cfg.

(** The count of active iterations over a range, in closed form. *)
Lemma active_count_closed (g lo hi : Z) :
  0 <= g < 4 -> 0 <= lo <= hi ->
  active_count cfg m g lo hi =
  count_expected (period cfg) (duration cfg) g hi
  - count_expected (period cfg) (duration cfg) g lo.
Proof.
  intros Hg Hlh. unfold active_count.
  apply (for_ind
           (fun k c => c = count_expected (period cfg) (duration cfg) g k
                           - count_expected (period cfg) (duration cfg) g lo)
           lo hi _ 0 ltac:(lia)).
  - lia.
  - intros k c Hk ->.
    rewrite count_expected_succ by lia.
    rewrite active_spec by lia.
    destruct (_ && _); lia.
Qed.

Lemma dormant_count_closed (g lo hi : Z) :
  lo <= hi ->
  dormant_count cfg m g lo hi = (hi - lo) - active_count cfg m g lo hi.
Proof.
  intros Hlh. unfold dormant_count, active_count.
  apply (for_ind
           (fun k c =>
              c = (k - lo)
                  - for_ lo k (fun iter c => if active cfg m g iter
                                             then c + 1 else c) 0)
           lo hi _ 0 Hlh).
  - rewrite for_nil by lia. lia.
  - intros k c Hk ->. rewrite for_snoc by lia.
    destruct (active cfg m g k); lia.
Qed.


End Schedule.

(** ** Checked configurations *)

Lemma check_config_facts (cfg : config) :
  check_config cfg = true ->
  1 <= iterations cfg /\ 2 <= n cfg /\ 1 <= nr cfg < n cfg /\
  0 <= r_level cfg /\ 1 <= period cfg /\
  1 <= duration cfg <= period cfg /\ 1 <= sub_iterations cfg /\
  1 <= RADIUS cfg /\ 2 * RADIUS cfg + 1 <= n cfg /\
  2 * RADIUS cfg + 1 <= nr_true cfg.
Proof. unfold check_config. intros H. bool_lia. Qed.

Lemma tile_size_ok (cfg : config) : tiling cfg = true -> 1 <= tile_size cfg.
Proof.
  unfold tiling, tile_size. destruct (tile_arg cfg) as [t|]; [|discriminate].
  destruct (_ || _) eqn:E; [discriminate|]. intros _. bool_lia.
Qed.





(** C6. In a run of a checked configuration (so [1 <= duration <= period])
    no iteration has two active refinements, and in every window of
    [4*period] consecutive iterations each refinement is active at
    exactly [duration] iterations and dormant at the others. *)
Theorem one_active_corner_per_iteration (cfg : config) (m : state) :
  check_config cfg = true ->
  (forall iter g1 g2,
      active cfg m g1 iter = true -> active cfg m g2 iter = true -> g1 = g2)
  /\ (forall g s,
         0 <= g < 4 -> 0 <= s ->
         active_count cfg m g s (s + 4 * period cfg) = duration cfg
         /\ dormant_count cfg m g s (s + 4 * period cfg)
            = 4 * period cfg - duration cfg).
Proof.
  intros Hc. pose proof (check_config_facts cfg Hc) as F. split.
  - intros iter g1 g2. unfold active.
    destruct (active_corner cfg m iter) as [g'|]; [|discriminate].
    intros H1 H2. apply Z.eqb_eq in H1, H2. congruence.
  - intros g s Hg Hs.
    assert (A : active_count cfg m g s (s + 4 * period cfg) = duration cfg).
    { rewrite active_count_closed by lia.
      rewrite count_expected_cycle by lia. lia. }
    split; [exact A|].
    rewrite dormant_count_closed, A by lia. lia.
Qed.

Lemma one_active_corner_per_iteration_witness :
  check_config sample_config = true /\
  active_count sample_config junk_memory 2 3 (3 + 4 * 2) = 1.
Proof.
  split; [reflexivity|].
  apply (proj2 (one_active_corner_per_iteration sample_config junk_memory
                  eq_refl) 2 3); lia.
Defined.

(** ** Exact arithmetic *)

Local Open Scope Qc_scope.


Lemma Zc_mul (a b : Z) : Zc (a * b) = Zc a * Zc b.
Proof.
  apply Qc_is_canon. unfold Zc, Qcmult, Q2Qc; cbn [this].
  rewrite !Qred_correct, inject_Z_mult. reflexivity.
Qed.







Lemma Zc_neq0 (a : Z) : a <> 0%Z -> Zc a <> 0.
Proof.
  intros H E. apply H. apply (f_equal this) in E.
  unfold Zc, Q2Qc in E; cbn [this] in E.
  assert (E' : (inject_Z a == 0)%Q).
  { rewrite <- (Qred_correct (inject_Z a)), E. apply Qred_correct. }
  unfold Qeq in E'. cbn in E'. lia.
Qed.



(** ** Sums *)













(** ** The weight tables *)

(** The comparisons of the goal decided one at a time, the impossible
    branches closed as they appear. *)
Ltac zprune :=
  repeat (match goal with
          | |- context [(?a =? ?b)%Z] => destruct (Z.eqb_spec a b)
          | |- context [(?a <? ?b)%Z] => destruct (Z.ltb_spec a b)
          | |- context [(?a <=? ?b)%Z] => destruct (Z.leb_spec a b)
          | |- context [(?a >? ?b)%Z] =>
              rewrite (Z.gtb_ltb a b); destruct (Z.ltb_spec b a)
          end; try lia; cbn [andb orb negb]).

(** All comparisons of the goal decided, then linear arithmetic. *)
Ltac zcases :=
  repeat match goal with
         | |- context [(?a =? ?b)%Z] => destruct (Z.eqb_spec a b)
         | |- context [(?a <? ?b)%Z] => destruct (Z.ltb_spec a b)
         | |- context [(?a <=? ?b)%Z] => destruct (Z.leb_spec a b)
         | |- context [(?a >? ?b)%Z] =>
             rewrite (Z.gtb_ltb a b); destruct (Z.ltb_spec b a)
         end;
  cbn [andb orb negb].

(** A doubly nested loop that assigns [F ii jj] to every cell of a
    rectangle of a table. *)
Lemma wset_fill {T : Type} (F : Z -> Z -> T) (a b c d : Z) (w : wtab (T:=T))
    (x y : Z) :
  for_ c d (fun jj w => for_ a b (fun ii w => wset w ii jj (F ii jj)) w) w x y =
  if rect a b c d x y then F x y else w x y.
Proof.
  assert (Row : forall jj w', (a <= b)%Z -> forall x y,
             for_ a b (fun ii w => wset w ii jj (F ii jj)) w' x y =
             if rect a b jj (jj + 1) x y then F x y else w' x y).
  { intros jj w' Hab.
    apply (for_ind (fun k r => forall x y,
                        r x y = if rect a k jj (jj + 1) x y then F x y
                                else w' x y) a b _ w' Hab).
    - intros x' y'. unfold rect. zcases; try lia; reflexivity.
    - intros k s Hk IH x' y'. unfold wset. rewrite IH. unfold rect.
      zcases; try lia; subst; reflexivity. }
  destruct (Z_le_gt_dec c d) as [Hcd|Hcd].
  2:{ rewrite for_nil by lia. unfold rect. zcases; try lia; reflexivity. }
  destruct (Z_le_gt_dec a b) as [Hab|Hab].
  2:{ rewrite (for_ext c d _ (fun _ w => w)).
      - replace (for_ c d (fun _ w => w) w) with w.
        + unfold rect. zcases; try lia; reflexivity.
        + symmetry. apply (for_ind (fun _ r => r = w) c d _ w Hcd); auto.
      - intros. now rewrite for_nil by lia. }
  revert x y.
  apply (for_ind (fun k r => forall x y,
                      r x y = if rect a b c k x y then F x y else w x y)
           c d _ w Hcd).
  - intros x y. unfold rect. zcases; try lia; reflexivity.
  - intros k s Hk IH x y. rewrite Row by assumption. rewrite IH.
    unfold rect. zcases; try lia; reflexivity.
Qed.

Lemma weight_clear_spec (R : Z) (w : wtab) (x y : Z) :
  weight_clear R w x y =
  if rect (- R) (R + 1) (- R) (R + 1) x y then 0 else w x y.
Proof. unfold weight_clear. apply (wset_fill (fun _ _ => 0)). Qed.


(** The star loop, after the arms up to distance [k-1] are written. *)
Lemma weight_star_spec (R : Z) (w : wtab) (x y : Z) :
  (0 <= R)%Z ->
  weight_star R w x y =
  if ((x =? 0) && (0 <? Z.abs y) && (Z.abs y <? R + 1)
      || (y =? 0) && (0 <? Z.abs x) && (Z.abs x <? R + 1))%Z
  then star_w R x y else w x y.
Proof.
  intros HR. unfold weight_star. revert x y.
  apply (for_ind
           (fun k r => forall x y,
                r x y =
                if ((x =? 0) && (0 <? Z.abs y) && (Z.abs y <? k)
                    || (y =? 0) && (0 <? Z.abs x) && (Z.abs x <? k))%Z
                then star_w R x y else w x y)
           1%Z (R + 1)%Z _ w ltac:(lia)).
  - intros x y. zcases; try lia; reflexivity.
  - intros k s Hk IH x y. unfold wset. rewrite !IH.
    unfold star_w, star_arm. rewrite !Z.gtb_ltb.
    zprune; subst; rewrite ?Z.opp_involutive; reflexivity.
Qed.

Lemma Qcinv_neq0 (x : Qc) : x <> 0 -> 1 / x <> 0.
Proof.
  intros Hx E. assert (H : 1 / x * x = 1) by (field; exact Hx).
  rewrite E in H. ring_simplify in H. discriminate H.
Qed.

Lemma Qcopp_neq0 (x : Qc) : x <> 0 -> - x <> 0.
Proof.
  intros Hx E. apply Hx. rewrite <- (Qcopp_involutive x), E. reflexivity.
Qed.

Lemma Qcmult_neq0 (x y : Qc) : x <> 0 -> y <> 0 -> x * y <> 0.
Proof.
  intros Hx Hy E. destruct (Qcmult_integral _ _ E); contradiction.
Qed.

Lemma star_arm_neq0 (R k : Z) : (1 <= R)%Z -> k <> 0%Z -> star_arm R k <> 0.
Proof.
  intros HR Hk. unfold star_arm. rewrite Z.gtb_ltb.
  destruct (Z.ltb_spec 0 k).
  - apply Qcinv_neq0. repeat apply Qcmult_neq0; apply Zc_neq0; lia.
  - apply Qcopp_neq0, Qcinv_neq0.
    repeat apply Qcmult_neq0; apply Zc_neq0; lia.
Qed.

(** The table of the star stencil, cell by cell. *)
Lemma weight_star_table (R : Z) (w0 : wtab) (x y : Z) :
  (0 <= R)%Z -> (- R <= x <= R)%Z -> (- R <= y <= R)%Z ->
  weight Star R w0 x y = star_w R x y.
Proof.
  intros HR Hx Hy. unfold weight.
  rewrite weight_star_spec, weight_clear_spec by assumption.
  unfold rect, star_w. zcases; try lia; reflexivity.
Qed.

Lemma star_w_nonzero (R x y : Z) :
  (1 <= R)%Z ->
  (if Qc_eq_dec (star_w R x y) 0 then false else true) =
  negb (x =? 0)%Z && (y =? 0)%Z || (x =? 0)%Z && negb (y =? 0)%Z.
Proof.
  intros HR. unfold star_w.
  destruct (Z.eqb_spec x 0), (Z.eqb_spec y 0); cbn [negb andb orb];
    destruct (Qc_eq_dec _ 0) as [E|E]; try reflexivity;
    try (exfalso; apply E; reflexivity);
    exfalso; revert E; now apply star_arm_neq0.
Qed.

(** The star table has [4*R] nonzero entries. *)
Lemma count_nonzero_star (R : Z) (w0 : wtab) :
  (1 <= R)%Z -> count_nonzero R (weight Star R w0) = (4 * R)%Z.
Proof.
  intros HR. unfold count_nonzero.
  set (test := fun ii jj : Z =>
                 negb (ii =? 0)%Z && (jj =? 0)%Z
                 || (ii =? 0)%Z && negb (jj =? 0)%Z).
  assert (Row : forall jj c, (- R <= jj <= R)%Z ->
             for_ (- R) (R + 1)
               (fun ii c => if Qc_eq_dec (weight Star R w0 ii jj) 0
                            then c else (c + 1)%Z) c =
             (c + if (jj =? 0)%Z then 2 * R else 1)%Z).
  { intros jj c Hjj.
    rewrite (for_ext _ _ _ (fun ii c => if test ii jj then (c + 1)%Z else c)).
    - assert (G : for_ (- R) (R + 1)
                    (fun ii c => if test ii jj then (c + 1)%Z else c) c =
                  (c + if (jj =? 0)%Z
                       then (R + 1 + R) - (if (0 <? R + 1)%Z then 1 else 0)
                       else (if (0 <? R + 1)%Z then 1 else 0))%Z).
      { apply (for_ind
                 (fun k r =>
                    r = (c + if (jj =? 0)%Z
                             then (k + R) - (if (0 <? k)%Z then 1 else 0)
                             else (if (0 <? k)%Z then 1 else 0))%Z)
                 (- R)%Z (R + 1)%Z _ c ltac:(lia)).
        - zcases; lia.
        - intros k s Hk ->. unfold test. zcases; lia. }
      rewrite G. zcases; lia.
    - intros ii c' Hii.
      rewrite weight_star_table by lia. unfold test.
      rewrite <- (star_w_nonzero R ii jj HR).
      destruct (Qc_eq_dec _ 0); reflexivity. }
  assert (G : for_ (- R) (R + 1)
                (fun jj c =>
                   for_ (- R) (R + 1)
                     (fun ii c => if Qc_eq_dec (weight Star R w0 ii jj) 0
                                  then c else (c + 1)%Z) c) 0%Z =
              ((R + 1 + R) + if (0 <? R + 1)%Z then 2 * R - 1 else 0)%Z).
  { apply (for_ind
             (fun k r => r = ((k + R) + if (0 <? k)%Z then 2 * R - 1 else 0)%Z)
             (- R)%Z (R + 1)%Z _ 0%Z ltac:(lia)).
    - zcases; lia.
    - intros k s Hk ->. rewrite Row by lia. zcases; lia. }
  rewrite G. zcases; lia.
Qed.

(** C8. For the star stencil of radius [RADIUS >= 1] the table is zero
    off the centre row and the centre column and at the centre itself;
    at distance [k] from the centre along either axis it holds
    [1/(2*k*RADIUS)] beyond the centre and [-1/(2*k*RADIUS)] before it;
    so [4*RADIUS] entries are nonzero, and the stencil has
    [stencil_size = 4*RADIUS+1] points, the centre included. *)
Theorem star_weights (R : Z) (w0 : wtab) :
  (1 <= R)%Z ->
  (forall x y, (- R <= x <= R)%Z -> (- R <= y <= R)%Z ->
               weight Star R w0 x y <> 0 -> x = 0%Z \/ y = 0%Z)
  /\ (forall k, (1 <= k <= R)%Z ->
                weight Star R w0 0%Z k = 1 / (Zc 2 * Zc k * Zc R)
                /\ weight Star R w0 k 0%Z = 1 / (Zc 2 * Zc k * Zc R)
                /\ weight Star R w0 0%Z (- k)%Z = - (1 / (Zc 2 * Zc k * Zc R))
                /\ weight Star R w0 (- k)%Z 0%Z = - (1 / (Zc 2 * Zc k * Zc R))
                /\ 1 / (Zc 2 * Zc k * Zc R) <> 0)
  /\ weight Star R w0 0%Z 0%Z = 0
  /\ count_nonzero R (weight Star R w0) = (4 * R)%Z
  /\ stencil_size Star R = (4 * R + 1)%Z.
Proof.
  intros HR. repeat split.
  - intros x y Hx Hy. rewrite weight_star_table by lia.
    unfold star_w. zcases; try lia. intros E. now contradiction E.
  - rewrite weight_star_table by lia. unfold star_w, star_arm.
    zcases; try lia; reflexivity.
  - rewrite weight_star_table by lia. unfold star_w, star_arm.
    zcases; try lia; reflexivity.
  - rewrite weight_star_table by lia. unfold star_w, star_arm.
    zcases; try lia. now rewrite Z.opp_involutive.
  - rewrite weight_star_table by lia. unfold star_w, star_arm.
    zcases; try lia. now rewrite Z.opp_involutive.
  - apply Qcinv_neq0. repeat apply Qcmult_neq0; apply Zc_neq0; lia.
  - rewrite weight_star_table by lia. reflexivity.
  - now apply count_nonzero_star.
Qed.

Lemma star_weights_witness :
  (1 <= 2)%Z /\
  count_nonzero 2 (weight Star 2 (s_weight junk_memory)) = (4 * 2)%Z.
Proof.
  split; [lia|].
  exact (proj1 (proj2 (proj2 (proj2 (star_weights 2 (s_weight junk_memory)
                                       ltac:(lia)))))).
Defined.

(** At radius 1 four entries of the star table are nonzero, one less
    than [stencil_size = 4*1+1]: the centre holds 0. *)
Lemma star_nonzero_count_is_not_stencil_size :
  count_nonzero 1 (weight Star 1 (s_weight junk_memory)) = 4%Z
  /\ count_nonzero 1 (weight Star 1 (s_weight junk_memory)) <> (4 * 1 + 1)%Z
  /\ weight Star 1 (s_weight junk_memory) 0%Z 0%Z = 0.
Proof.
  assert (E : count_nonzero 1 (weight Star 1 (s_weight junk_memory)) = 4%Z)
    by (vm_compute; reflexivity).
  split; [exact E|split].
  - rewrite E. discriminate.
  - apply Qc_is_canon. vm_compute. reflexivity.
Qed.

(** ** The response of the stencil to a linear field *)




Section Response.

Variable R : Z.
Variable inb : buf (T:=Qc).
Variable off S : Z.
Variable a b c0 : Qc.
Hypothesis R_pos : (1 <= R)%Z.
Hypothesis inb_linear : linear_field off S a b c0 inb.



End Response.

(** ** The table of the compact stencil *)

(** The rows and columns of ring [jj], as far as the inner loop got. *)
Lemma compact_sides (R jj t : Z) (w : wtab) (x y : Z) :
  (1 <= jj)%Z -> (- jj + 1 <= t <= jj)%Z ->
  for_ (- jj + 1) t
    (fun ii w =>
       let v := 1 / (Zc 4 * Zc jj * (Zc 2 * Zc jj - 1) * Zc R) in
       let w := wset w ii jj v in
       let w := wset w ii (- jj) (- v) in
       let w := wset w jj ii v in
       wset w (- jj) ii (- v)) w x y =
  if on_side jj t x y then side_val R jj x y else w x y.
Proof.
  intros Hjj Ht. revert x y.
  apply (for_ind
           (fun k r => forall x y,
                r x y = if on_side jj k x y then side_val R jj x y else w x y)
           (- jj + 1)%Z t _ w ltac:(lia)).
  - intros x y. unfold on_side. zprune; reflexivity.
  - intros k s Hk IH x y. cbv zeta. unfold wset. rewrite IH.
    unfold on_side, side_val, compact_side. zprune; reflexivity.
Qed.

(** One pass of the outer loop writes ring [jj] and nothing else. *)
Lemma compact_ring_spec (R jj : Z) (w : wtab) (x y : Z) :
  (1 <= jj)%Z ->
  compact_ring R jj w x y =
  if on_ring jj x y then ring_val R jj x y else w x y.
Proof.
  intros Hjj. unfold compact_ring. cbv zeta. unfold wset at 1 2.
  rewrite compact_sides by lia.
  unfold on_ring, ring_val, compact_corner.
  destruct (on_side jj jj x y) eqn:E; zprune; reflexivity.
Qed.

Lemma on_ring_ring (jj x y : Z) :
  (1 <= jj)%Z -> on_ring jj x y = true -> ring x y = jj.
Proof.
  intros Hjj H. unfold on_ring, on_side in H. unfold ring. bool_lia.
Qed.

(** The loop of line 299 leaves, on each ring up to [R], what the pass
    for that ring wrote. *)
Lemma weight_compact_spec (R : Z) (w : wtab) (x y : Z) :
  (0 <= R)%Z ->
  weight_compact R w x y =
  if ((1 <=? ring x y) && (ring x y <? R + 1))%Z && on_ring (ring x y) x y
  then ring_val R (ring x y) x y else w x y.
Proof.
  intros HR. unfold weight_compact. revert x y.
  apply (for_ind
           (fun k r => forall x y,
                r x y =
                if ((1 <=? ring x y) && (ring x y <? k))%Z
                   && on_ring (ring x y) x y
                then ring_val R (ring x y) x y else w x y)
           1%Z (R + 1)%Z _ w ltac:(lia)).
  - intros x y. destruct (Z.leb_spec 1 (ring x y)), (Z.ltb_spec (ring x y) 1);
      try lia; reflexivity.
  - intros k s Hk IH x y. rewrite compact_ring_spec by lia. rewrite IH.
    destruct (on_ring k x y) eqn:E.
    + rewrite (on_ring_ring k x y) by (assumption || lia). rewrite E.
      destruct (Z.leb_spec 1 k), (Z.ltb_spec k (k + 1)); try lia. reflexivity.
    + destruct (Z.eq_dec (ring x y) k) as [Ek|Ek].
      * rewrite Ek, E, !andb_false_r. reflexivity.
      * destruct (Z.leb_spec 1 (ring x y)), (Z.ltb_spec (ring x y) k),
          (Z.ltb_spec (ring x y) (k + 1)); try lia; reflexivity.
Qed.

(** The table of the compact stencil, cell by cell. *)
Lemma weight_compact_table (R : Z) (w0 : wtab) (x y : Z) :
  (0 <= R)%Z -> (- R <= x <= R)%Z -> (- R <= y <= R)%Z ->
  weight Compact R w0 x y =
  if (1 <=? ring x y)%Z && on_ring (ring x y) x y
  then ring_val R (ring x y) x y else 0.
Proof.
  intros HR Hx Hy. unfold weight.
  rewrite weight_compact_spec, weight_clear_spec by assumption.
  assert (Hr : (ring x y < R + 1)%Z) by (unfold ring; lia).
  destruct (Z.ltb_spec (ring x y) (R + 1)); [|lia].
  rewrite andb_true_r.
  destruct (_ && _); [reflexivity|].
  unfold rect. zprune. reflexivity.
Qed.

Section CompactTable.

Variable R : Z.
Variable w0 : wtab (T:=Qc).
Variable k t : Z.
Hypothesis k_range : (1 <= k <= R)%Z.
Hypothesis t_range : (- k < t < k)%Z.

Let W := weight Compact R w0.

Ltac lookup :=
  unfold W; rewrite weight_compact_table by lia;
  match goal with
  | |- context [ring ?x ?y] =>
      replace (ring x y) with k by (unfold ring; lia)
  end;
  unfold on_ring, on_side, ring_val, side_val; zprune; reflexivity.

Lemma compact_top : W t k = compact_side R k.
Proof. lookup. Qed.

Lemma compact_bottom : W t (- k)%Z = - compact_side R k.
Proof. lookup. Qed.

Lemma compact_right : W k t = compact_side R k.
Proof. lookup. Qed.

Lemma compact_left : W (- k)%Z t = - compact_side R k.
Proof. lookup. Qed.

Lemma compact_corner_pp : W k k = compact_corner R k.
Proof using k_range. clear t t_range. lookup. Qed.

Lemma compact_corner_mm : W (- k)%Z (- k)%Z = - compact_corner R k.
Proof using k_range. clear t t_range. lookup. Qed.

Lemma compact_corner_pm : W k (- k)%Z = 0.
Proof using k_range. clear t t_range. lookup. Qed.

Lemma compact_corner_mp : W (- k)%Z k = 0.
Proof using k_range. clear t t_range. lookup. Qed.

End CompactTable.

Lemma compact_centre (R : Z) (w0 : wtab) :
  (0 <= R)%Z -> weight Compact R w0 0%Z 0%Z = 0.
Proof.
  intros HR. rewrite weight_compact_table by lia. reflexivity.
Qed.


Section ResponseCompact.

Variable R : Z.
Variable w0 : wtab (T:=Qc).
Variable a b A : Qc.
Hypothesis R_pos : (1 <= R)%Z.

(** A weight times the linear field about the point. *)
Let F (ii jj : Z) : Qc :=
  weight Compact R w0 ii jj * (A + a * Zc ii + b * Zc jj).




End ResponseCompact.

Section Response2.

Variable R : Z.
Variable inb : buf (T:=Qc).
Variable off S : Z.
Variable a b c0 : Qc.
Hypothesis R_pos : (1 <= R)%Z.
Hypothesis inb_linear : linear_field off S a b c0 inb.



End Response2.

(** ** The sweeps on a grid *)

Lemma updates_at {T : Type} (pv : Z -> Z -> T -> T) (off S : Z)
    (P : Z -> Z -> bool) (o o' : buf) (i j : Z) :
  updates pv off S P o o' ->
  (0 <= i < S)%Z ->
  o' (idx off S i j) =
  if P i j then pv i j (o (idx off S i j)) else o (idx off S i j).
Proof.
  intros H Hi. rewrite (H (idx off S i j)).
  destruct (idx_decode off S i j Hi) as [-> ->]. reflexivity.
Qed.

(** A sweep leaves alone every cell that is not the cell of an interior
    point of its grid. *)
Lemma sweep_frame {T : Type} (add mul : T -> T -> T) (R : Z)
    (sh : stencil_shape) (tl : bool) (ts : Z) (w : wtab) (inb : buf)
    (off S : Z) (o : buf) (c : Z) :
  (0 <= R)%Z -> (tl = true -> (1 <= ts)%Z) ->
  (forall i j, interior R S i j = true -> c <> idx off S i j) ->
  sweep add mul R sh tl ts w inb off S o c = o c.
Proof.
  intros HR Hts Hc.
  rewrite (sweep_updates add mul R sh w inb off S HR tl ts o Hts c).
  destruct (interior R S _ _) eqn:E; [|reflexivity].
  exfalso. apply (Hc _ _ E). apply idx_encode.
  unfold interior in E. bool_lia.
Qed.

(** C7. For every input buffer, weight table, stencil shape and tile
    size of at least one, the tiled sweep and the untiled sweep leave
    the same value in every cell of [out], whatever the arithmetic of
    the elements is. *)
Theorem tiled_sweep_equals_untiled {T : Type} (add mul : T -> T -> T)
    (R : Z) (sh : stencil_shape) (tile_size : Z) (w : wtab) (inb : buf)
    (off S : Z) (outb : buf) :
  (0 <= R)%Z -> (1 <= tile_size)%Z ->
  forall c,
    sweep_tiled add mul R sh tile_size w inb off S outb c
    = sweep_untiled add mul R sh w inb off S outb c.
Proof.
  intros HR Hts c.
  rewrite (sweep_tiled_updates add mul R sh w inb off S HR tile_size outb Hts c).
  rewrite (sweep_untiled_updates add mul R sh w inb off S HR outb c).
  reflexivity.
Qed.

Lemma tiled_sweep_equals_untiled_witness :
  (0 <= 1)%Z /\ (1 <= 2)%Z /\
  forall c,
    sweep_tiled Z.add Z.mul 1 Compact 2 (fun x y => (x + 2 * y)%Z)
      (fun k => (k * k)%Z) 0 6 (fun _ => 5%Z) c
    = sweep_untiled Z.add Z.mul 1 Compact (fun x y => (x + 2 * y)%Z)
        (fun k => (k * k)%Z) 0 6 (fun _ => 5%Z) c.
Proof.
  split; [lia|split; [lia|]].
  apply (tiled_sweep_equals_untiled Z.add Z.mul 1 Compact 2); lia.
Defined.



(** ** One iteration of the driver *)

Section Iteration.

Variable cfg : config.
Hypothesis cfg_ok : check_config cfg = true.


Lemma s_out_refine_birth (iter : Z) (st : state) :
  s_out (refine cfg iter (birth cfg iter st)) = s_out st.
Proof.
  unfold refine, birth.
  destruct (in_window cfg iter), (_ =? 0)%Z; reflexivity.
Qed.


Lemma s_outr_birth (iter : Z) (st : state) :
  s_outr (birth cfg iter st) = s_outr st.
Proof. unfold birth. destruct (_ =? 0)%Z; reflexivity. Qed.

(** The background sweep leaves the halo of [out] alone. *)
Lemma background_halo (st : state) (i j : Z) :
  (0 <= i < n cfg)%Z ->
  interior (RADIUS cfg) (n cfg) i j = false ->
  s_out (background cfg st) (idx 0 (n cfg) i j) = s_out st (idx 0 (n cfg) i j).
Proof.
  intros Hi Hh. pose proof (check_config_facts cfg cfg_ok) as F.
  unfold background; cbn [s_out].
  rewrite sweep_at; [|lia|apply tile_size_ok|assumption].
  now rewrite Hh.
Qed.

(** The sub-iterations on the active refinement leave alone every
    cell of [outr] outside the interior of that refinement: its own
    halo, and the whole of the other refinements. *)
Lemma refine_halo (iter : Z) (st : state) (g i j : Z) :
  (0 <= i < nr_true cfg)%Z -> (0 <= j < nr_true cfg)%Z ->
  interior (RADIUS cfg) (nr_true cfg) i j = false ->
  s_outr (refine cfg iter st) (idx (roff cfg g) (nr_true cfg) i j)
  = s_outr st (idx (roff cfg g) (nr_true cfg) i j).
Proof.
  intros Hi Hj Hh. pose proof (check_config_facts cfg cfg_ok) as F.
  unfold refine. destruct (in_window cfg iter); [|reflexivity].
  cbn [s_outr].
  set (c := idx (roff cfg g) (nr_true cfg) i j).
  assert (Hc : forall x y, interior (RADIUS cfg) (nr_true cfg) x y = true ->
                           c <> idx (roff cfg (s_g st)) (nr_true cfg) x y).
  { intros x y Hxy E. unfold c, idx, roff in E.
    unfold interior in Hxy, Hh.
    set (S := nr_true cfg) in *. set (R := RADIUS cfg) in *.
    assert (Hx : (R <= x < S - R)%Z) by bool_lia.
    assert (Hy : (R <= y < S - R)%Z) by bool_lia.
    assert (Ei : i = x).
    { assert (E' : (i + (j + g * S) * S = x + (y + s_g st * S) * S)%Z) by lia.
      apply (f_equal (fun z => z mod S)%Z) in E'.
      rewrite !Z.mod_add, !Z.mod_small in E' by lia. exact E'. }
    subst x.
    assert (Ej : (j + g * S = y + s_g st * S)%Z) by nia.
    assert (Eg : g = s_g st) by nia.
    assert (j = y) by nia. subst y.
    bool_lia. }
  destruct (Z_le_gt_dec 0 (sub_iterations cfg)) as [Hs|Hs].
  - apply (for_ind (fun _ o => o c = s_outr st c) 0%Z (sub_iterations cfg)
             _ (s_outr st) Hs).
    + reflexivity.
    + intros k o Hk IH. rewrite sweep_frame; try assumption.
      * lia.
      * apply tile_size_ok.
  - now rewrite for_nil by lia.
Qed.

End Iteration.

(** C9. In a pass of the loop of a checked configuration, whatever the
    state it starts from, the sweeps write [out] and [outr] at interior
    points only: every halo cell of the background grid and every halo
    cell of every refinement holds after the pass what it held before. *)
Theorem halo_cells_unchanged (cfg : config) (iter : Z) (st : state) :
  check_config cfg = true ->
  (forall i j,
      (0 <= i < n cfg)%Z -> (0 <= j < n cfg)%Z ->
      interior (RADIUS cfg) (n cfg) i j = false ->
      s_out (iteration cfg iter st) (idx 0 (n cfg) i j)
      = s_out st (idx 0 (n cfg) i j))
  /\ (forall g i j,
         (0 <= i < nr_true cfg)%Z -> (0 <= j < nr_true cfg)%Z ->
         interior (RADIUS cfg) (nr_true cfg) i j = false ->
         s_outr (iteration cfg iter st) (idx (roff cfg g) (nr_true cfg) i j)
         = s_outr st (idx (roff cfg g) (nr_true cfg) i j)).
Proof.
  intros Hc. split.
  - intros i j Hi Hj Hh. unfold iteration.
    rewrite background_halo by assumption.
    now rewrite s_out_refine_birth.
  - intros g i j Hi Hj Hh. unfold iteration.
    change (s_outr (background cfg ?s)) with (s_outr s).
    rewrite refine_halo by assumption.
    now rewrite s_outr_birth.
Qed.

Lemma halo_cells_unchanged_witness :
  check_config sample_config_tiled = true /\
  s_out (iteration sample_config_tiled 0 junk_memory)
    (idx 0 (n sample_config_tiled) 7 3)
  = s_out junk_memory (idx 0 (n sample_config_tiled) 7 3).
Proof.
  split; [reflexivity|].
  apply (proj1 (halo_cells_unchanged sample_config_tiled 0 junk_memory eq_refl));
    [cbn; lia|cbn; lia|reflexivity].
Defined.

(** ** The background grid along the run *)




Section Run.

Variable cfg : config.
Variable m : state.
Hypothesis cfg_ok : check_config cfg = true.

(** What holds of the background grid at the start of iteration [k]. *)
Let Inv (k : Z) (st : state) : Prop :=
  s_weight st = weight (shape cfg) (RADIUS cfg) (s_weight m)
  /\ linear_field 0 (n cfg) COEFX COEFY (Zc k) (s_in st)
  /\ (forall i j, interior (RADIUS cfg) (n cfg) i j = true ->
                  s_out st (idx 0 (n cfg) i j) = Zc k * (COEFX + COEFY)).







End Run.






(** ** The validation *)

Lemma for_0_4 {A : Type} (body : Z -> A -> A) (s : A) :
  for_ 0 4 body s = body 3%Z (body 2%Z (body 1%Z (body 0%Z s))).
Proof. reflexivity. Qed.





(** The checks of the refinements keep a failure, and print no rate. *)
Lemma check_refinements_spec (cfg : config) (verbose : bool)
    (nrm_r : Z -> Qc) (acc : list event * bool) :
  existsb is_rate (fst acc) = false ->
  existsb is_rate (fst (check_refinements cfg verbose nrm_r acc)) = false
  /\ snd (check_refinements cfg verbose nrm_r acc)
     = snd acc
       && negb (Qcgtb (ABS (nrm_r 0%Z - reference_norm_r cfg 0))
                  (EPSILON (double cfg)))
       && negb (Qcgtb (ABS (nrm_r 1%Z - reference_norm_r cfg 1))
                  (EPSILON (double cfg)))
       && negb (Qcgtb (ABS (nrm_r 2%Z - reference_norm_r cfg 2))
                  (EPSILON (double cfg)))
       && negb (Qcgtb (ABS (nrm_r 3%Z - reference_norm_r cfg 3))
                  (EPSILON (double cfg))).
Proof.
  intros Hacc. unfold check_refinements. rewrite for_0_4.
  destruct acc as [out v]. cbn [fst snd] in *.
  destruct (Qcgtb (ABS (nrm_r 0%Z - _)) _), (Qcgtb (ABS (nrm_r 1%Z - _)) _),
    (Qcgtb (ABS (nrm_r 2%Z - _)) _), (Qcgtb (ABS (nrm_r 3%Z - _)) _),
    verbose, v;
    cbn [fst snd negb andb];
    rewrite ?existsb_app, ?Hacc; cbn [existsb is_rate orb];
    split; reflexivity.
Qed.

Lemma check_background_spec (cfg : config) (verbose : bool) (nrm : Qc) :
  existsb is_rate (fst (check_background cfg verbose nrm)) = false
  /\ snd (check_background cfg verbose nrm)
     = negb (Qcgtb (ABS (nrm - reference_norm cfg)) (EPSILON (double cfg))).
Proof.
  unfold check_background.
  destruct (Qcgtb _ _), verbose; split; reflexivity.
Qed.

(** C5. When the measured norm of the background grid or of a
    refinement is further than [EPSILON] from its reference, the
    program prints "Solution does not validate" and exits with failure
    status before the operation count and the rate are computed: no
    rate is reported. *)
Theorem validation_failure_exits_before_rate (cfg : config) (verbose : bool)
    (nrm : Qc) (nrm_r : Z -> Qc) (num_interpolations : Z) (stencil_time : Qc) :
  (Qcgtb (ABS (nrm - reference_norm cfg)) (EPSILON (double cfg)) = true
   \/ exists g, (0 <= g < 4)%Z /\
                Qcgtb (ABS (nrm_r g - reference_norm_r cfg g))
                  (EPSILON (double cfg)) = true) ->
  snd (analyze cfg verbose nrm nrm_r num_interpolations stencil_time)
    = EXIT_FAILURE
  /\ existsb is_rate
       (fst (analyze cfg verbose nrm nrm_r num_interpolations stencil_time))
     = false
  /\ In SolutionDoesNotValidate
       (fst (analyze cfg verbose nrm nrm_r num_interpolations stencil_time)).
Proof.
  intros Hfail. unfold analyze.
  destruct (check_background_spec cfg verbose nrm) as [B1 B2].
  destruct (check_refinements_spec cfg verbose nrm_r
              (check_background cfg verbose nrm) B1) as [C1 C2].
  destruct (check_refinements cfg verbose nrm_r
              (check_background cfg verbose nrm)) as [out validate].
  cbn [fst snd] in *.
  assert (V : validate = false).
  { rewrite C2, B2. destruct Hfail as [H|(g & Hg & H)].
    - rewrite H. reflexivity.
    - assert (Hc : g = 0%Z \/ g = 1%Z \/ g = 2%Z \/ g = 3%Z) by lia.
      destruct Hc as [->|[->|[->| ->]]]; rewrite H; cbn [negb];
        rewrite ?andb_false_r; reflexivity. }
  rewrite V. cbn [negb fst snd]. split; [reflexivity|split].
  - rewrite existsb_app, C1. reflexivity.
  - apply in_or_app. right. left. reflexivity.
Qed.

Lemma validation_failure_exits_before_rate_witness :
  Qcgtb (ABS (Zc 11 - reference_norm sample_config))
    (EPSILON (double sample_config)) = true /\
  snd (analyze sample_config false (Zc 11) (reference_norm_r sample_config)
         3 (Zc 2)) = EXIT_FAILURE.
Proof.
  assert (H : Qcgtb (ABS (Zc 11 - reference_norm sample_config))
                (EPSILON (double sample_config)) = true)
    by (vm_compute; reflexivity).
  split; [exact H|].
  exact (proj1 (validation_failure_exits_before_rate sample_config false
                  (Zc 11) (reference_norm_r sample_config) 3 (Zc 2)
                  (or_introl H))).
Defined.

(** A background norm of 11 against the reference 12 of the sample
    configuration is a validation failure, and the output ends without
    any rate. *)
Lemma validation_failure_reports_no_rate :
  Qcgtb (ABS (Zc 11 - reference_norm sample_config))
    (EPSILON (double sample_config)) = true
  /\ existsb is_rate
       (fst (analyze sample_config false (Zc 11)
               (reference_norm_r sample_config) 3 (Zc 2))) = false
  /\ snd (analyze sample_config false (Zc 11)
            (reference_norm_r sample_config) 3 (Zc 2)) = EXIT_FAILURE.
Proof. repeat split; vm_compute; reflexivity. Qed.

(** When every grid validates, the rate is reported and the program
    exits with success. *)
Lemma validation_success_reports_rate (cfg : config) (verbose : bool)
    (nrm : Qc) (nrm_r : Z -> Qc) (num_interpolations : Z) (stencil_time : Qc) :
  Qcgtb (ABS (nrm - reference_norm cfg)) (EPSILON (double cfg)) = false ->
  (forall g, (0 <= g < 4)%Z ->
             Qcgtb (ABS (nrm_r g - reference_norm_r cfg g))
               (EPSILON (double cfg)) = false) ->
  snd (analyze cfg verbose nrm nrm_r num_interpolations stencil_time)
    = EXIT_SUCCESS
  /\ existsb is_rate
       (fst (analyze cfg verbose nrm nrm_r num_interpolations stencil_time))
     = true.
Proof.
  intros Hb Hr. unfold analyze.
  destruct (check_background_spec cfg verbose nrm) as [B1 B2].
  destruct (check_refinements_spec cfg verbose nrm_r
              (check_background cfg verbose nrm) B1) as [C1 C2].
  destruct (check_refinements cfg verbose nrm_r
              (check_background cfg verbose nrm)) as [out validate].
  cbn [fst snd] in *.
  assert (V : validate = true).
  { rewrite C2, B2, Hb, !Hr by lia. reflexivity. }
  rewrite V. cbn [negb fst snd]. split; [reflexivity|].
  rewrite existsb_app. cbn [existsb is_rate]. now rewrite orb_true_r.
Qed.

(** ** The mesh of the refinements *)





(** ** Truncation of nonnegative values *)




(** ** Interpolation *)




(** Without refinement ([hr == 1.0]) the interpolation is a copy: every
    cell of the refinement receives the background cell it lies on, and
    no cell outside the refinement is written. *)
Theorem interpolate_copies (inrg : buf) (ro : Z) (inb : buf)
    (n nr_true rstarti rstartj expand : Z) :
  (forall ir jr, (0 <= ir < nr_true)%Z -> (0 <= jr < nr_true)%Z ->
      interpolate inrg ro inb n nr_true rstarti rstartj expand 1
        (idx ro nr_true ir jr)
      = inb (idx 0 n (ir + rstarti) (jr + rstartj)))
  /\ (forall c,
         (forall ir jr, (0 <= ir < nr_true)%Z -> (0 <= jr < nr_true)%Z ->
                        c <> idx ro nr_true ir jr) ->
         interpolate inrg ro inb n nr_true rstarti rstartj expand 1 c = inrg c).
Proof.
  assert (U : updates
                (fun ir jr _ => inb (idx 0 n (ir + rstarti) (jr + rstartj)))
                ro nr_true (rect 0 nr_true 0 nr_true) inrg
                (interpolate inrg ro inb n nr_true rstarti rstartj expand 1)).
  { unfold interpolate. destruct (Qc_eq_dec 1 1) as [_|N]; [|now contradiction N].
    apply (updates_block
             (fun ir jr _ => inb (idx 0 n (ir + rstarti) (jr + rstartj)))
             ro nr_true 0 nr_true 0 nr_true
             (fun ir jr b => upd b (idx ro nr_true ir jr)
                               (inb (idx 0 n (ir + rstarti) (jr + rstartj)))));
      [lia|lia|intros i j o' c'; reflexivity]. }
  split.
  - intros ir jr Hi Hj. rewrite (updates_at _ _ _ _ _ _ ir jr U Hi).
    unfold rect. zprune. reflexivity.
  - intros c Hc. rewrite (U c).
    destruct (rect 0 nr_true 0 nr_true _ _) eqn:E; [|reflexivity].
    exfalso. unfold rect in E.
    apply (Hc ((c - ro) mod nr_true)%Z ((c - ro) / nr_true)%Z);
      [bool_lia|bool_lia|apply idx_encode; bool_lia].
Qed.

Section InterpolateLinear.

Variable inb : buf (T:=Qc).
Variable ro n nr e rsi rsj : Z.
Variable h a b c0 : Qc.
Hypothesis e_pos : (1 <= e)%Z.
Hypothesis h_e : h * Zc e = 1.
Hypothesis nr_pos : (1 <= nr)%Z.
Hypothesis rsi_ok : (0 <= rsi /\ rsi + nr < n)%Z.
Hypothesis rsj_ok : (0 <= rsj /\ rsj + nr < n)%Z.
Hypothesis inb_linear : linear_field 0 n a b c0 inb.

(** The side of the refinement, and the field it should receive. *)
Let S : Z := (nr * e + 1)%Z.










End InterpolateLinear.

(** ** The stencil on a refinement *)



(** The cells of two refinements are apart. *)
Lemma patch_cells_apart (S g g' i j x y : Z) :
  (0 <= i < S)%Z -> (0 <= j < S)%Z -> (0 <= x < S)%Z -> (0 <= y < S)%Z ->
  idx (g * (S * S)) S i j = idx (g' * (S * S)) S x y ->
  g = g' /\ i = x /\ j = y.
Proof.
  intros Hi Hj Hx Hy E. unfold idx in E.
  assert (Ei : i = x).
  { assert (E' : (i + (j + g * S) * S = x + (y + g' * S) * S)%Z) by lia.
    apply (f_equal (fun z => z mod S)%Z) in E'.
    rewrite !Z.mod_add, !Z.mod_small in E' by lia. exact E'. }
  subst x.
  assert (Ej : (j + g * S = y + g' * S)%Z) by nia.
  assert (Eg : g = g') by nia.
  subst g'. repeat split. lia.
Qed.

Section Refinements.

Variable cfg : config.
Variable m : state.
Hypothesis cfg_ok : check_config cfg = true.






End Refinements.

(** ** The refinements along the run *)



(** Lines 365-366 for one refinement. *)
Lemma clear_interior_at (R off S : Z) (b : buf) (c : Z) :
  (0 <= R)%Z ->
  for_ R (S - R)
    (fun j b => for_ R (S - R) (fun i b => upd b (idx off S i j) 0) b) b c
  = if rect R (S - R) R (S - R) ((c - off) mod S) ((c - off) / S)
    then 0 else b c.
Proof.
  intros HR.
  apply (updates_block (fun _ _ _ => 0) off S R (S - R) R (S - R)
           (fun i j b => upd b (idx off S i j) 0));
    [lia|lia|intros i j o' c'; reflexivity].
Qed.

Section RefinementRun.

Variable cfg : config.
Variable m : state.
Hypothesis cfg_ok : check_config cfg = true.










End RefinementRun.

(** ** The whole program *)










(** ** More on the tables *)

(** The table of the compact stencil on ring [k]: [1/(4*k*(2*k-1)*RADIUS)]
    along the row above and the column right of the centre, the
    opposite along the row below and the column left of it,
    [1/(4*k*RADIUS)] and its opposite at the two corners on the
    diagonal, 0 at the two other corners and at the centre. *)
Theorem compact_weights (R : Z) (w0 : wtab) (k t : Z) :
  (1 <= k <= R)%Z -> (- k < t < k)%Z ->
  weight Compact R w0 t k = 1 / (Zc 4 * Zc k * (Zc 2 * Zc k - 1) * Zc R)
  /\ weight Compact R w0 k t = 1 / (Zc 4 * Zc k * (Zc 2 * Zc k - 1) * Zc R)
  /\ weight Compact R w0 t (- k)%Z
     = - (1 / (Zc 4 * Zc k * (Zc 2 * Zc k - 1) * Zc R))
  /\ weight Compact R w0 (- k)%Z t
     = - (1 / (Zc 4 * Zc k * (Zc 2 * Zc k - 1) * Zc R))
  /\ weight Compact R w0 k k = 1 / (Zc 4 * Zc k * Zc R)
  /\ weight Compact R w0 (- k)%Z (- k)%Z = - (1 / (Zc 4 * Zc k * Zc R))
  /\ weight Compact R w0 k (- k)%Z = 0
  /\ weight Compact R w0 (- k)%Z k = 0
  /\ weight Compact R w0 0%Z 0%Z = 0.
Proof.
  intros Hk Ht.
  rewrite compact_top, compact_right, compact_bottom, compact_left,
    compact_corner_pp, compact_corner_mm, compact_corner_pm,
    compact_corner_mp, compact_centre by lia.
  unfold compact_side, compact_corner. repeat split; reflexivity.
Qed.

Lemma compact_weights_witness :
  (1 <= 2 <= 3)%Z /\
  weight Compact 3 (s_weight junk_memory) 1%Z 2%Z
  = 1 / (Zc 4 * Zc 2 * (Zc 2 * Zc 2 - 1) * Zc 3).
Proof.
  split; [lia|].
  exact (proj1 (compact_weights 3 (s_weight junk_memory) 2 1
                  ltac:(lia) ltac:(lia))).
Defined.

Lemma star_w_antisymmetric (R x y : Z) :
  star_w R (- x)%Z (- y)%Z = - star_w R x y.
Proof.
  unfold star_w, star_arm. rewrite !Z.gtb_ltb.
  zprune; rewrite ?Z.opp_involutive; ring.
Qed.

Lemma ring_val_antisymmetric (R k x y : Z) :
  (1 <= k)%Z -> on_ring k x y = true ->
  on_ring k (- x)%Z (- y)%Z = true
  /\ ring_val R k (- x)%Z (- y)%Z = - ring_val R k x y.
Proof.
  intros Hk. unfold on_ring, on_side, ring_val, side_val.
  zprune; intros ?; try discriminate; split; try reflexivity; ring.
Qed.

(** Both tables are antisymmetric under the reflection through the
    centre. *)
Theorem weights_antisymmetric (sh : stencil_shape) (R : Z) (w0 : wtab)
    (x y : Z) :
  (0 <= R)%Z -> (- R <= x <= R)%Z -> (- R <= y <= R)%Z ->
  weight sh R w0 (- x)%Z (- y)%Z = - weight sh R w0 x y.
Proof.
  intros HR Hx Hy. destruct sh.
  - rewrite !weight_star_table by lia. apply star_w_antisymmetric.
  - rewrite !weight_compact_table by lia.
    assert (Er : ring (- x)%Z (- y)%Z = ring x y)
      by (unfold ring; now rewrite !Z.abs_opp).
    rewrite Er.
    destruct (Z.leb_spec 1 (ring x y)) as [H1|H1]; cbn [andb]; [|ring].
    destruct (on_ring (ring x y) x y) eqn:E.
    + destruct (ring_val_antisymmetric R (ring x y) x y H1 E) as [-> ->].
      reflexivity.
    + destruct (on_ring (ring x y) (- x)%Z (- y)%Z) eqn:E'; [|ring].
      destruct (ring_val_antisymmetric R (ring x y) (- x)%Z (- y)%Z H1 E')
        as [E'' _].
      rewrite !Z.opp_involutive in E''. congruence.
Qed.

Lemma weights_antisymmetric_witness :
  (0 <= 2)%Z /\
  weight Compact 2 (s_weight junk_memory) (- 1)%Z (- -2)%Z
  = - weight Compact 2 (s_weight junk_memory) 1%Z (-2)%Z.
Proof.
  split; [lia|].
  exact (weights_antisymmetric Compact 2 (s_weight junk_memory) 1 (-2)
           ltac:(lia) ltac:(lia) ltac:(lia)).
Defined.

(** ** More on the interpolation and the sweeps *)





(** The loop body reads the table and the input within [RADIUS] of its
    point only. *)
Lemma point_val_ext {T : Type} (add mul : T -> T -> T) (R : Z)
    (sh : stencil_shape) (w w' : wtab) (inb inb' : buf) (off S i j : Z)
    (v : T) :
  (forall x y, (- R <= x <= R)%Z -> (- R <= y <= R)%Z -> w x y = w' x y) ->
  (forall x y, (i - R <= x <= i + R)%Z -> (j - R <= y <= j + R)%Z ->
               inb (idx off S x y) = inb' (idx off S x y)) ->
  point_val add mul R sh w inb off S i j v
  = point_val add mul R sh w' inb' off S i j v.
Proof.
  intros Hw Hin. unfold point_val. destruct sh.
  - rewrite (for_ext 1 (R + 1) _
               (fun ii v => add v (mul (w' ii 0%Z)
                                     (inb' (idx off S (i + ii) j))))).
    2:{ intros k v' Hk. rewrite Hw, Hin by lia. reflexivity. }
    f_equal.
    rewrite (for_ext (- R) 0 _
               (fun ii v => add v (mul (w' ii 0%Z)
                                     (inb' (idx off S (i + ii) j))))).
    2:{ intros k v' Hk. rewrite Hw, Hin by lia. reflexivity. }
    f_equal.
    apply for_ext. intros k v' Hk. rewrite Hw, Hin by lia. reflexivity.
  - apply for_ext. intros jj v' Hjj.
    apply for_ext. intros ii v'' Hii. rewrite Hw, Hin by lia. reflexivity.
Qed.

(** A sweep reads the input buffer inside its grid and the table inside
    [-RADIUS..RADIUS] only: two inputs that agree on the grid, and two
    tables that agree there, give the same output in every cell,
    whatever the arithmetic of the elements is. *)
Theorem sweep_reads_inside_grid {T : Type} (add mul : T -> T -> T) (R : Z)
    (sh : stencil_shape) (tl : bool) (ts : Z) (w w' : wtab)
    (inb inb' : buf) (off S : Z) (outb : buf) :
  (0 <= R)%Z -> (tl = true -> (1 <= ts)%Z) ->
  (forall x y, (- R <= x <= R)%Z -> (- R <= y <= R)%Z -> w x y = w' x y) ->
  (forall x y, (0 <= x < S)%Z -> (0 <= y < S)%Z ->
               inb (idx off S x y) = inb' (idx off S x y)) ->
  forall c,
    sweep add mul R sh tl ts w inb off S outb c
    = sweep add mul R sh tl ts w' inb' off S outb c.
Proof.
  intros HR Hts Hw Hin c.
  rewrite (sweep_updates add mul R sh w inb off S HR tl ts outb Hts c).
  rewrite (sweep_updates add mul R sh w' inb' off S HR tl ts outb Hts c).
  destruct (interior R S _ _) eqn:E; [|reflexivity].
  apply point_val_ext; [assumption|].
  intros x y Hx Hy. apply Hin; unfold interior in E; bool_lia.
Qed.

Lemma sweep_reads_inside_grid_witness :
  (0 <= 1)%Z /\
  forall c,
    sweep Z.add Z.mul 1 Star true 2 (fun x y => (x + 2 * y)%Z)
      (fun k => (k * k)%Z) 0 4 (fun _ => 5%Z) c
    = sweep Z.add Z.mul 1 Star true 2
        (fun x y => if (Z.abs x <=? 1)%Z && (Z.abs y <=? 1)%Z
                    then (x + 2 * y)%Z else 77%Z)
        (fun k => if (0 <=? k)%Z && (k <? 16)%Z then (k * k)%Z else 99%Z)
        0 4 (fun _ => 5%Z) c.
Proof.
  split; [lia|].
  apply (sweep_reads_inside_grid Z.add Z.mul 1 Star true 2).
  - lia.
  - intros _; lia.
  - intros x y Hx Hy.
    destruct (Z.leb_spec (Z.abs x) 1), (Z.leb_spec (Z.abs y) 1);
      try lia; reflexivity.
  - intros x y Hx Hy. unfold idx.
    destruct (Z.leb_spec 0 (0 + (x + y * 4))),
      (Z.ltb_spec (0 + (x + y * 4)) 16); try lia; reflexivity.
Defined.




(** ** The halo along the run *)

(** A halo cell of one refinement is no interior cell of any. *)
Lemma halo_not_interior_of_any (R S g g' i j : Z) :
  (0 <= R)%Z -> (0 <= i < S)%Z -> (0 <= j < S)%Z ->
  interior R S i j = false ->
  rect R (S - R) R (S - R)
    ((idx (g * (S * S)) S i j - g' * (S * S)) mod S)
    ((idx (g * (S * S)) S i j - g' * (S * S)) / S) = false.
Proof.
  intros HR Hi Hj Hh.
  destruct (rect _ _ _ _ _ _) eqn:E; [|reflexivity].
  exfalso. unfold rect in E.
  set (c := idx (g * (S * S)) S i j) in *.
  assert (Ec : c = idx (g' * (S * S)) S ((c - g' * (S * S)) mod S)
                     ((c - g' * (S * S)) / S))
    by (apply idx_encode; lia).
  unfold c at 1 in Ec.
  apply patch_cells_apart in Ec; [|lia|lia|bool_lia|bool_lia].
  destruct Ec as (_ & Ex & Ey). rewrite <- Ex, <- Ey in E.
  unfold interior in Hh. bool_lia.
Qed.

(** Through the initialisation and every pass of the loop of a checked
    configuration, the halo of the background output and the halo of
    every refinement output keep what the allocated memory held: they
    are never initialised and never written. *)
Theorem halo_keeps_allocated_contents (cfg : config) (m : state) (k : Z) :
  check_config cfg = true ->
  (0 <= k)%Z ->
  (forall i j,
      (0 <= i < n cfg)%Z -> (0 <= j < n cfg)%Z ->
      interior (RADIUS cfg) (n cfg) i j = false ->
      s_out (run_to cfg k m) (idx 0 (n cfg) i j) = s_out m (idx 0 (n cfg) i j))
  /\ (forall g i j,
         (0 <= i < nr_true cfg)%Z -> (0 <= j < nr_true cfg)%Z ->
         interior (RADIUS cfg) (nr_true cfg) i j = false ->
         s_outr (run_to cfg k m) (idx (roff cfg g) (nr_true cfg) i j)
         = s_outr m (idx (roff cfg g) (nr_true cfg) i j)).
Proof.
  intros Hc Hk. pose proof (check_config_facts cfg Hc) as F. split.
  - intros i j Hi Hj Hh. unfold run_to.
    apply (for_ind
             (fun _ st => s_out st (idx 0 (n cfg) i j)
                          = s_out m (idx 0 (n cfg) i j))
             0%Z k (iteration cfg) (initialize cfg m) Hk).
    + unfold initialize; cbn [s_out]. rewrite clear_interior_at by lia.
      destruct (idx_decode 0 (n cfg) i j Hi) as [-> ->].
      unfold interior in Hh. unfold rect. now rewrite Hh.
    + intros t st Ht IH. unfold iteration.
      rewrite background_halo by assumption.
      now rewrite s_out_refine_birth.
  - intros g i j Hi Hj Hh. unfold run_to.
    apply (for_ind
             (fun _ st => s_outr st (idx (roff cfg g) (nr_true cfg) i j)
                          = s_outr m (idx (roff cfg g) (nr_true cfg) i j))
             0%Z k (iteration cfg) (initialize cfg m) Hk).
    + unfold initialize; cbn [s_outr]. rewrite for_0_4.
      rewrite !clear_interior_at by lia. unfold roff.
      rewrite !(halo_not_interior_of_any (RADIUS cfg) (nr_true cfg) g _ i j)
        by (assumption || lia).
      reflexivity.
    + intros t st Ht IH. unfold iteration.
      change (s_outr (background cfg ?s)) with (s_outr s).
      rewrite refine_halo by assumption.
      now rewrite s_outr_birth.
Qed.

Lemma halo_keeps_allocated_contents_witness :
  check_config sample_config = true /\
  s_out (run_to sample_config 6 junk_memory) (idx 0 (n sample_config) 0 5)
  = s_out junk_memory (idx 0 (n sample_config) 0 5).
Proof.
  split; [reflexivity|].
  apply (proj1 (halo_keeps_allocated_contents sample_config junk_memory 6
                  eq_refl ltac:(lia))); [cbn; lia|cbn; lia|reflexivity].
Defined.

(** For a checked configuration no division of the validation divides
    by zero: both interiors have at least one point, their numbers of
    points are [(n-2*RADIUS)^2] and [(nr_true-2*RADIUS)^2], and
    [iterations] is positive. *)
Theorem norm_divisors_nonzero (cfg : config) :
  check_config cfg = true ->
  f_active_points cfg = Zc ((n cfg - 2 * RADIUS cfg) ^ 2)
  /\ f_active_points_r cfg = Zc ((nr_true cfg - 2 * RADIUS cfg) ^ 2)
  /\ f_active_points cfg <> 0
  /\ f_active_points_r cfg <> 0
  /\ Zc (iterations cfg) <> 0.
Proof.
  intros Hc. pose proof (check_config_facts cfg Hc) as F.
  unfold f_active_points, f_active_points_r.
  rewrite !Z.pow_2_r, !Zc_mul. repeat split; try reflexivity.
  - apply Qcmult_neq0; apply Zc_neq0; lia.
  - apply Qcmult_neq0; apply Zc_neq0; lia.
  - apply Zc_neq0. lia.
Qed.

Lemma norm_divisors_nonzero_witness :
  check_config sample_config = true /\ f_active_points sample_config <> 0.
Proof.
  split; [reflexivity|].
  exact (proj1 (proj2 (proj2 (norm_divisors_nonzero sample_config eq_refl)))).
Defined.

(** ** More on the schedule and the interpolation *)

(** The sub-iterations of an iteration always work on the refinement
    that was interpolated at the start of the current period: if [g] is
    active at [k], the last multiple [k0] of [period] up to [k] is a
    birth of [g], and [k] lies in the window [k0 .. k0+duration-1]. *)
Theorem active_corner_was_born_this_period (cfg : config) (m : state)
    (g k : Z) :
  check_config cfg = true ->
  (0 <= k)%Z ->
  active cfg m g k = true ->
  let k0 := (k - k mod period cfg)%Z in
  Z.rem k0 (period cfg) = 0%Z
  /\ s_g (birth cfg k0 (run_to cfg k0 m)) = g
  /\ (k0 <= k < k0 + duration cfg)%Z
  /\ (0 <= g < 4)%Z.
Proof.
  intros Hc Hk Ha k0. pose proof (check_config_facts cfg Hc) as F.
  assert (Hp : (1 <= period cfg)%Z) by lia.
  rewrite (active_spec cfg m Hp g k Hk) in Ha.
  apply andb_true_iff in Ha. destruct Ha as [Hw Hg].
  apply Z.ltb_lt in Hw. apply Z.eqb_eq in Hg.
  pose proof (Z.div_mod k (period cfg) ltac:(lia)) as D.
  pose proof (Z.mod_pos_bound k (period cfg) ltac:(lia)) as B.
  pose proof (Z.mod_le k (period cfg) Hk ltac:(lia)) as Le.
  assert (E0 : k0 = (period cfg * (k / period cfg))%Z) by (unfold k0; lia).
  assert (Hk0 : (0 <= k0)%Z) by (unfold k0; lia).
  assert (Ed : (k0 / period cfg = k / period cfg)%Z).
  { rewrite E0, Z.mul_comm. apply Z.div_mul. lia. }
  repeat split; try lia.
  - rewrite Z.rem_mod_nonneg by lia.
    rewrite E0, Z.mul_comm. apply Z.mod_mul. lia.
  - rewrite (s_g_scheduled cfg m Hp k0 Hk0), Ed. exact Hg.
  - rewrite <- Hg. apply Z.mod_pos_bound. lia.
  - rewrite <- Hg. apply Z.mod_pos_bound. lia.
Qed.

Lemma active_corner_was_born_this_period_witness :
  check_config sample_config = true /\
  s_g (birth sample_config (4 - 4 mod period sample_config)
         (run_to sample_config (4 - 4 mod period sample_config) junk_memory))
  = 2%Z.
Proof.
  split; [reflexivity|].
  exact (proj1 (proj2 (active_corner_was_born_this_period sample_config
                         junk_memory 2 4 eq_refl ltac:(lia) eq_refl))).
Defined.

(** The interpolation, with or without refinement, writes no cell
    outside the refinement it fills. *)
Theorem interpolate_writes_own_refinement (inrg : buf) (ro : Z) (inb : buf)
    (n nr_true rstarti rstartj expand : Z) (hr : Qc) (c : Z) :
  (1 <= expand)%Z ->
  (forall ir jr, (0 <= ir < nr_true)%Z -> (0 <= jr < nr_true)%Z ->
                 c <> idx ro nr_true ir jr) ->
  interpolate inrg ro inb n nr_true rstarti rstartj expand hr c = inrg c.
Proof.
  intros He Hc. unfold interpolate. destruct (Qc_eq_dec hr 1) as [E1|N1].
  - rewrite (updates_block
               (fun ir jr _ => inb (idx 0 n (ir + rstarti) (jr + rstartj)))
               ro nr_true 0 nr_true 0 nr_true
               (fun ir jr b => upd b (idx ro nr_true ir jr)
                                 (inb (idx 0 n (ir + rstarti) (jr + rstartj))))
               inrg ltac:(lia) ltac:(lia)
               ltac:(intros i j o' c'; reflexivity) c).
    destruct (rect 0 nr_true 0 nr_true _ _) eqn:E; [|reflexivity].
    exfalso. unfold rect in E.
    apply (Hc ((c - ro) mod nr_true)%Z ((c - ro) / nr_true)%Z);
      [bool_lia|bool_lia|apply idx_encode; bool_lia].
  - destruct (Z_le_gt_dec nr_true 0) as [Hn|Hn].
    { unfold for_step. replace (Z.to_nat (nr_true - 0)) with O by lia.
      cbn [for_step_fuel fst]. now rewrite for_nil by lia. }
    set (xbody := fun (jr : Z) (st : buf * Z) => _).
    set (ybody := fun (jr : Z) (b : buf) => _).
    assert (X : fst (for_step 0 nr_true expand xbody (inrg, rstartj)) c
                = inrg c).
    { destruct (for_step_ind (fun _ (st : buf * Z) => fst st c = inrg c)
                  0%Z nr_true expand xbody (inrg, rstartj) He)
        as (k & _ & _ & Hk); [reflexivity| |exact Hk].
      intros t [bt jb] Ht IH. cbn [fst] in IH. unfold xbody. cbn [fst].
      unfold upd at 1.
      destruct (Z.eqb_spec c (idx ro nr_true (nr_true - 1) t)) as [E|_];
        [exfalso; apply (Hc (nr_true - 1)%Z t); [lia|lia|exact E]|].
      rewrite <- IH.
      apply (for_ind (fun _ b => b c = bt c) 0%Z (nr_true - 1)%Z _ bt
               ltac:(lia)); [reflexivity|].
      intros u b Hu IHu. cbv zeta. unfold upd.
      destruct (Z.eqb_spec c (idx ro nr_true u t)) as [E|_];
        [exfalso; apply (Hc u t); [lia|lia|exact E]|exact IHu]. }
    rewrite <- X.
    apply (for_ind
             (fun _ b => b c = fst (for_step 0 nr_true expand xbody
                                      (inrg, rstartj)) c)
             0%Z (nr_true - 1)%Z ybody _ ltac:(lia)); [reflexivity|].
    intros t b Ht IH. rewrite <- IH. unfold ybody. cbv zeta.
    apply (for_ind (fun _ b' => b' c = b c) 0%Z nr_true _ b ltac:(lia));
      [reflexivity|].
    intros u b' Hu IHu. unfold upd.
    destruct (Z.eqb_spec c (idx ro nr_true u t)) as [E|_];
      [exfalso; apply (Hc u t); [lia|lia|exact E]|exact IHu].
Qed.

Lemma interpolate_writes_own_refinement_witness :
  (1 <= 2)%Z /\
  interpolate (fun k => Zc k) 25 (fun k => Zc (k * k)) 6 5 1 0 2 (1 / Zc 2) 24
  = Zc 24.
Proof.
  split; [lia|].
  apply (interpolate_writes_own_refinement (fun k => Zc k) 25
           (fun k => Zc (k * k)) 6 5 1 0 2 (1 / Zc 2) 24); [lia|].
  intros ir jr Hi Hj. unfold idx. lia.
Defined.
